(** * The iframe Ethereum provider: request/response correlation over postMessage

    A shallow embedding of [src/index.ts].  The file holds two revisions of the
    provider one after the other; they are embedded side by side as the modules
    [V1] (lines 1-323: [execute], [send], [sendAsync],
    [handleParentWindowMessage], [RpcError]) and [V2] (lines 325-597: [send],
    [sendAsync], [handleJsonrpcMessage]).

    The provider is single threaded: every function below is one
    run-to-completion turn of the event loop, written in a small monad that
    threads the provider object, logs the calls made on collaborators (promise
    completers, [postMessage], [setTimeout], [emit]) and may throw. *)

From stdpp Require Import base strings gmap list pretty.

Open Scope string_scope.
Open Scope Z_scope.
Open Scope list_scope.

(** ** JavaScript values carried by messages

    [event.data] is produced by the structured clone of whatever the other
    window posted.  The JSON-like fragment is modelled: numbers are the
    integer-valued ones (rendered in decimal, which is what JavaScript does
    below 10^21), objects are plain objects given by their own properties in
    order, arrays carry their elements only. *)

Local Unset Elimination Schemes.
Inductive JsValue : Type :=
| JUndefined
| JNull
| JBool (b : bool)
| JNum (n : Z)
| JStr (s : string)
| JArr (items : list JsValue)
| JObj (fields : list (string * JsValue)).
Local Set Elimination Schemes.

(** Values that can be thrown or used to reject a promise. [TypeErrorObj] is the
    error raised by the runtime itself (reading a property of [undefined] or
    [null], calling a non-function, failing to convert an object to a
    primitive); its engine-specific text is not modelled. *)
Inductive JsError : Type :=
| ErrorObj (message : string)
| RpcErrorObj (message : string) (code reason : JsValue)
| TypeErrorObj.

Inductive Result (A : Type) : Type :=
| Ok (a : A)
| Throw (e : JsError).
Arguments Ok {A} a.
Arguments Throw {A} e.

Definition result_bind {A B} (r : Result A) (k : A → Result B) : Result B :=
  match r with
  | Ok a => k a
  | Throw e => Throw e
  end.

Global Instance Result_ret : MRet Result := @Ok.
Global Instance Result_bind : MBind Result := λ A B k r, result_bind r k.

(** Own-property lookup in a plain object: the first binding of the key. *)
Fixpoint assoc (k : string) (fields : list (string * JsValue)) : option JsValue :=
  match fields with
  | [] => None
  | (k', v) :: rest => if String.eqb k k' then Some v else assoc k rest
  end.

(** [!v] is false exactly on the falsy values. *)
Definition truthy (v : JsValue) : bool :=
  match v with
  | JUndefined | JNull => false
  | JBool b => b
  | JNum n => negb (Z.eqb n 0)
  | JStr s => negb (String.eqb s EmptyString)
  | JArr _ | JObj _ => true
  end.

(** [typeof v !== 'undefined' && v !== null]. *)
Definition present (v : JsValue) : bool :=
  match v with
  | JUndefined | JNull => false
  | _ => true
  end.

(** [v === s] for a string literal [s]. *)
Definition strict_eq_str (v : JsValue) (s : string) : bool :=
  match v with
  | JStr t => String.eqb t s
  | _ => false
  end.

(** [v.k] for the field names the source reads ([jsonrpc], [id], [method],
    [params], [error], [result], [code], [reason], [message]); none of them is
    defined on a built-in prototype, so primitives, strings and arrays yield
    [undefined]; reading a property of [undefined] or [null] throws. *)
Definition get_field (v : JsValue) (k : string) : Result JsValue :=
  match v with
  | JUndefined | JNull => Throw TypeErrorObj
  | JObj fields => Ok (default JUndefined (assoc k fields))
  | _ => Ok JUndefined
  end.

(** [v[i]] for a numeric literal [i]. *)
Definition get_index (v : JsValue) (i : nat) : Result JsValue :=
  match v with
  | JUndefined | JNull => Throw TypeErrorObj
  | JArr items => Ok (default JUndefined (items !! i))
  | JStr s => Ok (match String.get i s with
                  | Some c => JStr (String c EmptyString)
                  | None => JUndefined
                  end)
  | JObj fields => Ok (default JUndefined (assoc (pretty i) fields))
  | JBool _ | JNum _ => Ok JUndefined
  end.

(** ['k' in v] for the same field names: own property of an object, absent on
    an array, a [TypeError] on a primitive. *)
Definition has_property (k : string) (v : JsValue) : Result bool :=
  match v with
  | JObj fields => Ok (bool_decide (is_Some (assoc k fields)))
  | JArr _ => Ok false
  | _ => Throw TypeErrorObj
  end.

(** [number_to_string] is [Number.prototype.toString] on the modelled numbers. *)
Definition number_to_string (n : Z) : string := pretty n.

(** ['' + v] and the implicit conversion of a template literal.  Arrays join
    their elements with commas ([null] and [undefined] elements are empty).  A
    plain object is ["[object Object]"], unless it carries an own [toString]
    property: cloned data holds no functions, so that property is not callable
    and the conversion throws a [TypeError]. *)
Definition join (conv : JsValue → Result string) : list JsValue → Result string :=
  fix join (l : list JsValue) : Result string :=
    match l with
    | [] => Ok EmptyString
    | x :: rest =>
        sx ← match x with
             | JUndefined | JNull => Ok EmptyString
             | _ => conv x
             end;
        match rest with
        | [] => Ok sx
        | _ => sr ← join rest; Ok (sx +:+ "," +:+ sr)
        end
    end.

Fixpoint to_string (v : JsValue) : Result string :=
  match v with
  | JUndefined => Ok "undefined"
  | JNull => Ok "null"
  | JBool b => Ok (if b then "true" else "false")
  | JNum n => Ok (number_to_string n)
  | JStr s => Ok s
  | JArr items => join to_string items
  | JObj fields =>
      if bool_decide (is_Some (assoc "toString" fields))
      then Throw TypeErrorObj
      else Ok "[object Object]"
  end.

(** The key used by [obj[v]]; on the modelled values it is the same conversion. *)
Definition to_property_key (v : JsValue) : Result string := to_string v.

(** ** The provider object and the turn monad *)

Definition DEFAULT_TARGET_ORIGIN : string := "*".
Definition DEFAULT_TIMEOUT_MILLISECONDS : Z := 60000.
Definition JSON_RPC_VERSION : string := "2.0".

Record IFrameEthereumProviderOptions : Type := {
  opt_targetOrigin : option string;
  opt_timeoutMilliseconds : option Z;
}.

(** A [PromiseCompleter] is the pair of [resolve] and [reject] closures of one
    promise.  It is identified by the number of the call whose promise it
    completes; invoking one of its closures is logged as an effect. *)
Record IFrameEthereumProvider : Type := {
  targetOrigin : string;
  timeoutMilliseconds : Z;
  completers : gmap string nat;
}.

Definition constructor (o : IFrameEthereumProviderOptions) : IFrameEthereumProvider :=
  {| targetOrigin := default DEFAULT_TARGET_ORIGIN (opt_targetOrigin o);
     timeoutMilliseconds := default DEFAULT_TIMEOUT_MILLISECONDS (opt_timeoutMilliseconds o);
     completers := ∅ |}.

Definition with_completers (f : gmap string nat → gmap string nat)
    (this : IFrameEthereumProvider) : IFrameEthereumProvider :=
  {| targetOrigin := targetOrigin this;
     timeoutMilliseconds := timeoutMilliseconds this;
     completers := f (completers this) |}.

Inductive Effect : Type :=
| Resolve (c : nat) (v : JsValue)          (* completer.resolve(v) *)
| Reject (c : nat) (e : JsError)           (* completer.reject(e) *)
| PostMessage (payload : JsValue) (origin : string)
| SetTimeout (id : string) (ms : Z)        (* a timer whose callback captured id *)
| Emit (event : string) (args : list JsValue).   (* this.emit(event, ...args) *)

(** [Emit] stands for the call of the emitter inherited from [eventemitter3],
    which invokes the listeners registered for the event; the listeners and
    their registry are outside this file.

    One turn: from the provider before to the value returned or thrown, the
    provider after, and the effects in program order.  A throw keeps the
    mutations and effects that precede it. *)
Definition M (A : Type) : Type :=
  IFrameEthereumProvider → Result A * IFrameEthereumProvider * list Effect.

Definition ret {A} (a : A) : M A := λ this, (Ok a, this, []).
Definition throw {A} (e : JsError) : M A := λ this, (Throw e, this, []).
Definition bind {A B} (m : M A) (k : A → M B) : M B := λ this,
  match m this with
  | (Ok a, this1, out1) =>
      match k a this1 with
      | (r, this2, out2) => (r, this2, out1 ++ out2)
      end
  | (Throw e, this1, out1) => (Throw e, this1, out1)
  end.
Definition lift {A} (r : Result A) : M A := λ this, (r, this, []).
Definition tell (e : Effect) : M unit := λ this, (Ok tt, this, [e]).
Definition read {A} (f : IFrameEthereumProvider → A) : M A := λ this, (Ok (f this), this, []).
Definition modify (f : gmap string nat → gmap string nat) : M unit :=
  λ this, (Ok tt, with_completers f this, []).

Global Instance M_ret : MRet M := @ret.
Global Instance M_bind : MBind M := λ A B k m, bind m k.

Notation "'when' b 'then' m" := (if (b : bool) then m else ret tt)
  (at level 100, b at next level, only parsing).

(** *** Reading [this.completers[key]]

    [completers] is created by the literal [{}], so a key that is not an own
    property is looked up on [Object.prototype]; the names defined there yield
    a built-in (truthy) value that has neither [resolve] nor [reject]. *)
Definition object_prototype_keys : list string :=
  [ "constructor"; "__defineGetter__"; "__defineSetter__"; "hasOwnProperty";
    "__lookupGetter__"; "__lookupSetter__"; "isPrototypeOf";
    "propertyIsEnumerable"; "toString"; "valueOf"; "__proto__";
    "toLocaleString" ].

Inductive Slot : Type :=
| Own (c : nat)
| Inherited
| Absent.

Definition slot (key : string) (table : gmap string nat) : Slot :=
  match table !! key with
  | Some c => Own c
  | None => if bool_decide (key ∈ object_prototype_keys) then Inherited else Absent
  end.

Definition completer_at (key : string) : M Slot := read (λ this, slot key (completers this)).

(** ** The embedding predicate and the identifier generator *)

(** The two window references the predicate compares, as browsing-context ids. *)
Record Window : Type := {
  self : nat;
  parent : nat;
}.

(** [window && window.parent !== window.self]: [window] is an object, hence truthy. *)
Definition isEmbeddedInIFrame (window : Window) : bool :=
  negb (Nat.eqb (parent window) (self window)).

Definition MAX_SAFE_INTEGER : N := 9007199254740991%N.

(** ['' + Math.floor(Math.random() * Number.MAX_SAFE_INTEGER)].  The random
    source is external: [draw] is the integer the floor evaluates to, below
    [MAX_SAFE_INTEGER]. *)
Definition getUniqueId (draw : N) : string := pretty draw.

(** The double-quote character of the template literal in [execute]. *)
Definition dquote : string := String (Ascii.ascii_of_nat 34) EmptyString.

Definition NOT_EMBEDDED : JsError := ErrorObj "Not embedded within an iframe.".

(** [new Error(v)]: the message is the conversion of the argument, and is left
    to the prototype's empty string when the argument is [undefined]. *)
Definition new_Error (v : JsValue) : Result JsError :=
  match v with
  | JUndefined => Ok (ErrorObj EmptyString)
  | _ => s ← to_string v; Ok (ErrorObj s)
  end.

(** The request envelope built by both revisions. *)
Definition request_payload (id method : string) (params : JsValue) : JsValue :=
  JObj [ ("jsonrpc", JStr JSON_RPC_VERSION);
         ("id", JStr id);
         ("method", JStr method);
         ("params", params) ].

(** The argument of [sendAsync]: [{ method: string; params?: any[] }]. *)
Record Payload : Type := {
  payload_method : string;
  payload_params : option JsValue;
}.

Definition payload_fields (payload : Payload) : list (string * JsValue) :=
  ("method", JStr (payload_method payload)) ::
  match payload_params payload with
  | Some params => [("params", params)]
  | None => []
  end.

(** The [emit*] helpers: each one is a call of the inherited [emit]. *)
Definition emitNotification (result : JsValue) : M unit := tell (Emit "notification" [result]).
Definition emitConnect : M unit := tell (Emit "connect" []).
Definition emitClose (code reason : JsValue) : M unit := tell (Emit "close" [code; reason]).
Definition emitChainChanged (chainId : JsValue) : M unit := tell (Emit "chainChanged" [chainId]).
Definition emitNetworkChanged (networkId : JsValue) : M unit :=
  tell (Emit "networkChanged" [networkId]).
Definition emitAccountsChanged (accounts : JsValue) : M unit :=
  tell (Emit "accountsChanged" [accounts]).

(** [message.params[i]]. *)
Definition params_at (message : JsValue) (i : nat) : M JsValue :=
  params ← lift (get_field message "params");
  lift (get_index params i).

(** The [switch (message.method)] shared verbatim by the two handlers, entered
    when ['method' in message]. *)
Definition dispatch_method (message : JsValue) : M unit :=
  method ← lift (get_field message "method");
  if strict_eq_str method "notification" then
    params ← lift (get_field message "params");
    emitNotification params
  else if strict_eq_str method "connect" then
    emitConnect
  else if strict_eq_str method "close" then
    code ← params_at message 0;
    reason ← params_at message 1;
    emitClose code reason
  else if strict_eq_str method "chainChanged" then
    chainId ← params_at message 0;
    emitChainChanged chainId
  else if strict_eq_str method "networkChanged" then
    networkId ← params_at message 0;
    emitNetworkChanged networkId
  else if strict_eq_str method "accountsChanged" then
    accounts ← params_at message 0;
    emitAccountsChanged accounts
  else mret tt.

(** [if ('method' in message) { switch ... }]. *)
Definition notification_step (message : JsValue) : M unit :=
  has_method ← lift (has_property "method" message);
  when has_method then dispatch_method message.

(** ** First revision (lines 1-323) *)
Module V1.

(** [class RpcError]: the message interpolates both arguments, the fields
    keep them as given. *)
Definition RpcError (code reason : JsValue) : Result JsError :=
  c ← to_string code;
  r ← to_string reason;
  Ok (RpcErrorObj ("JSON RPC returned an error code " +:+ c +:+ ": " +:+ r) code reason).

Definition timeout_message (id : string) (ms : Z) : string :=
  "RPC ID " +:+ dquote +:+ id +:+ dquote +:+ " timed out after "
    +:+ number_to_string ms +:+ " milliseconds".

(** The callback handed to [window.setTimeout] by [execute]. *)
Definition timeout_callback (id : string) : M unit :=
  completer ← completer_at id;
  match completer with
  | Absent => mret tt
  | Own c =>
      ms ← read timeoutMilliseconds;
      tell (Reject c (ErrorObj (timeout_message id ms)));;
      modify (delete id)
  | Inherited => throw TypeErrorObj
  end.

(** [execute], up to the promise it returns.  [promise] names the promise
    created by [new Promise]; a throw is the rejection of the promise that
    the [async] function returns. [draw] is consumed by [getUniqueId]. *)
Definition execute (window : Window) (draw : N) (promise : nat)
    (method : string) (params : JsValue) : M nat :=
  if negb (isEmbeddedInIFrame window) then throw NOT_EMBEDDED else
  let id := getUniqueId draw in
  let payload := request_payload id method params in
  modify <[id := promise]>;;
  origin ← read targetOrigin;
  tell (PostMessage payload origin);;
  ms ← read timeoutMilliseconds;
  tell (SetTimeout id ms);;
  mret promise.

(** [send] up to its [await]. *)
Definition send (window : Window) (draw : N) (promise : nat)
    (method : string) (params : JsValue) : M nat :=
  if negb (isEmbeddedInIFrame window) then throw NOT_EMBEDDED else
  execute window draw promise method params.

(** [send] after its [await]: [settled] is how the promise of [execute]
    settled, the result is how the promise of [send] settles. *)
Definition send_resume (settled : Result JsValue) : Result JsValue :=
  response ← settled;
  has_error ← has_property "error" response;
  if has_error : bool then
    error ← get_field response "error";
    code ← get_field error "code";
    reason ← get_field error "reason";
    e ← RpcError code reason;
    Throw e
  else get_field response "result".

(** [sendAsync] up to its [await], and after it: the arguments handed to
    [callback]. *)
Definition sendAsync (window : Window) (draw : N) (promise : nat)
    (payload : Payload) : M nat :=
  execute window draw promise (payload_method payload)
    (default JUndefined (payload_params payload)).

Definition sendAsync_resume (settled : Result JsValue) : option JsError * JsValue :=
  match settled with
  | Ok result => (None, result)
  | Throw error => (Some error, JNull)
  end.

(** [completer.resolve(message)]. *)
Definition resolve (completer : Slot) (message : JsValue) : M unit :=
  match completer with
  | Own c => tell (Resolve c message)
  | _ => throw TypeErrorObj
  end.

(** [if (typeof message.id !== 'undefined' && message.id !== null) { ... }]. *)
Definition response_step (message : JsValue) : M unit :=
  id ← lift (get_field message "id");
  when present id then
    key ← lift (to_string id);
    completer ← completer_at key;
    match completer with
    | Absent => mret tt
    | _ =>
        has_error ← lift (has_property "error" message);
        is_response ← (if has_error : bool then mret true
                       else lift (has_property "result" message));
        (when is_response then resolve completer message);;
        key' ← lift (to_property_key id);
        modify (delete key')
    end.

Definition handleParentWindowMessage (data : JsValue) : M unit :=
  if negb (truthy data) then mret tt else
  let message := data in
  jsonrpc ← lift (get_field message "jsonrpc");
  if negb (strict_eq_str jsonrpc JSON_RPC_VERSION) then mret tt else
  response_step message;;
  notification_step message.

End V1.

(** ** Second revision (lines 325-597) *)
Module V2.

Definition timeout_message (id : string) (ms : Z) : string :=
  "RPC ID " +:+ id +:+ " timed out after " +:+ number_to_string ms +:+ " milliseconds".

(** The callback handed to [window.setTimeout] by [send]. *)
Definition timeout_callback (id : string) : M unit :=
  completer ← completer_at id;
  match completer with
  | Absent => mret tt
  | Own c =>
      ms ← read timeoutMilliseconds;
      tell (Reject c (ErrorObj (timeout_message id ms)));;
      modify (delete id)
  | Inherited => throw TypeErrorObj
  end.

(** [send], up to the promise it returns. *)
Definition send (window : Window) (draw : N) (promise : nat)
    (method : string) (params : JsValue) : M nat :=
  if negb (isEmbeddedInIFrame window) then throw NOT_EMBEDDED else
  let id := getUniqueId draw in
  let payload := request_payload id method params in
  modify <[id := promise]>;;
  origin ← read targetOrigin;
  tell (PostMessage payload origin);;
  ms ← read timeoutMilliseconds;
  tell (SetTimeout id ms);;
  mret promise.

(** [sendAsync] up to its [await], and after it: the arguments handed to
    [callback]; the result is [{...payload, result}]. *)
Definition sendAsync (window : Window) (draw : N) (promise : nat)
    (payload : Payload) : M nat :=
  send window draw promise (payload_method payload)
    (default JUndefined (payload_params payload)).

Definition sendAsync_resume (payload : Payload) (settled : Result JsValue)
    : option JsError * JsValue :=
  match settled with
  | Ok result => (None, JObj (payload_fields payload ++ [("result", result)]))
  | Throw error => (Some error, JNull)
  end.

(** [completer.reject(error)] and [completer.resolve(result)]. *)
Definition reject (completer : Slot) (error : JsError) : M unit :=
  match completer with
  | Own c => tell (Reject c error)
  | _ => throw TypeErrorObj
  end.

Definition resolve (completer : Slot) (result : JsValue) : M unit :=
  match completer with
  | Own c => tell (Resolve c result)
  | _ => throw TypeErrorObj
  end.

(** [if (typeof message.id !== 'undefined' && message.id !== null) { ... }]. *)
Definition response_step (message : JsValue) : M unit :=
  id ← lift (get_field message "id");
  when present id then
    key ← lift (to_string id);
    completer ← completer_at key;
    match completer with
    | Absent => mret tt
    | _ =>
        has_error ← lift (has_property "error" message);
        (if has_error : bool then
           error ← lift (e ← get_field message "error";
                         m ← get_field e "message";
                         new_Error m);
           reject completer error
         else
           has_result ← lift (has_property "result" message);
           when has_result then
             result ← lift (get_field message "result");
             resolve completer result);;
        key' ← lift (to_property_key id);
        modify (delete key')
    end.

Definition handleJsonrpcMessage (data : JsValue) : M unit :=
  if negb (truthy data) then mret tt else
  let message := data in
  jsonrpc ← lift (get_field message "jsonrpc");
  if negb (strict_eq_str jsonrpc JSON_RPC_VERSION) then mret tt else
  response_step message;;
  notification_step message.

End V2.

(** ** The event loop

    A run is a sequence of turns: a caller issues a call, the window delivers a
    message, or a pending timer fires.  Calls are numbered in the order they
    are issued; call [n] owns completer [n]. *)

Inductive Request : Type :=
| SendReq (method : string) (params : JsValue)
| SendAsyncReq (payload : Payload).

(** What the caller of a call observes: the promise of [send] settles, or the
    callback of [sendAsync] is called. *)
Inductive Outcome : Type :=
| Fulfilled (v : JsValue)
| Rejected (e : JsError)
| CalledBack (error : option JsError) (result : JsValue).

Definition settle (r : Result JsValue) : Outcome :=
  match r with
  | Ok v => Fulfilled v
  | Throw e => Rejected e
  end.

Definition call_back (args : option JsError * JsValue) : Outcome :=
  CalledBack args.1 args.2.

(** A revision of the provider, as the event loop sees it. *)
Record Impl : Type := {
  issue : Request → Window → N → nat → M nat;
  timer : string → M unit;
  handler : JsValue → M unit;
  resume : Request → Result JsValue → Outcome;
}.

Definition impl1 : Impl := {|
  issue req window draw promise :=
    match req with
    | SendReq method params => V1.send window draw promise method params
    | SendAsyncReq payload => V1.sendAsync window draw promise payload
    end;
  timer := V1.timeout_callback;
  handler := V1.handleParentWindowMessage;
  resume req settled :=
    match req with
    | SendReq _ _ => settle (V1.send_resume settled)
    | SendAsyncReq _ => call_back (V1.sendAsync_resume settled)
    end;
|}.

Definition impl2 : Impl := {|
  issue req window draw promise :=
    match req with
    | SendReq method params => V2.send window draw promise method params
    | SendAsyncReq payload => V2.sendAsync window draw promise payload
    end;
  timer := V2.timeout_callback;
  handler := V2.handleJsonrpcMessage;
  resume req settled :=
    match req with
    | SendReq _ _ => settle settled
    | SendAsyncReq payload => call_back (V2.sendAsync_resume payload settled)
    end;
|}.

Inductive Input : Type :=
| Call (window : Window) (draw : N) (req : Request)
| Message (data : JsValue)
| Timer (k : nat).                       (* the k-th pending timer fires *)

(** What a turn leaves in the log: the effects it performed, the rejection of
    a call that failed before it registered, an exception that escaped a
    handler into the event loop. *)
Inductive Entry : Type :=
| Did (e : Effect)
| Failed (call : nat) (e : JsError)
| Uncaught (e : JsError).

Record World : Type := {
  provider : IFrameEthereumProvider;
  calls : list Request;
  timers : list (nat * string);           (* armed by which call, capturing which id *)
  log : list Entry;
}.

Definition boot (o : IFrameEthereumProviderOptions) : World :=
  {| provider := constructor o; calls := []; timers := []; log := [] |}.

Definition armed (call : nat) (out : list Effect) : list (nat * string) :=
  omap (λ e, match e with SetTimeout id _ => Some (call, id) | _ => None end) out.

Definition escaped {A} (r : Result A) : list Entry :=
  match r with
  | Ok _ => []
  | Throw e => [Uncaught e]
  end.

Definition step (I : Impl) (w : World) (i : Input) : World :=
  match i with
  | Call window draw req =>
      let call := length (calls w) in
      let '(r, this, out) := issue I req window draw call (provider w) in
      {| provider := this;
         calls := calls w ++ [req];
         timers := timers w ++ armed call out;
         log := log w ++ (Did <$> out)
                  ++ match r with Ok _ => [] | Throw e => [Failed call e] end |}
  | Message data =>
      let '(r, this, out) := handler I data (provider w) in
      {| provider := this;
         calls := calls w;
         timers := timers w;
         log := log w ++ (Did <$> out) ++ escaped r |}
  | Timer k =>
      match timers w !! k with
      | None => w
      | Some (_, id) =>
          let '(r, this, out) := timer I id (provider w) in
          {| provider := this;
             calls := calls w;
             timers := delete k (timers w);
             log := log w ++ (Did <$> out) ++ escaped r |}
      end
  end.

Definition run (I : Impl) (w : World) (inputs : list Input) : World :=
  foldl (step I) w inputs.

(** *** Observations on a log *)

(** The completers invoked by a list of effects, in order. *)
Definition invoked (out : list Effect) : list nat :=
  omap (λ e, match e with
             | Resolve c _ | Reject c _ => Some c
             | _ => None
             end) out.

Definition performed (entries : list Entry) : list Effect :=
  omap (λ x, match x with Did e => Some e | _ => None end) entries.

(** How often [resolve] or [reject] of completer [c] was invoked. *)
Definition invocations (c : nat) (entries : list Entry) : nat :=
  length (filter (λ c', c' = c) (invoked (performed entries))).

(** How promise [c] settled: by the first invocation of its completer, or by
    the failure of the call before it registered. *)
Definition settlement (c : nat) (entries : list Entry) : option (Result JsValue) :=
  head (omap (λ x,
    match x with
    | Did (Resolve c' v) => if decide (c' = c) then Some (Ok v) else None
    | Did (Reject c' e) => if decide (c' = c) then Some (Throw e) else None
    | Failed c' e => if decide (c' = c) then Some (Throw e) else None
    | _ => None
    end) entries).

(** What the caller of call [c] has observed so far. *)
Definition outcome (I : Impl) (w : World) (c : nat) : option Outcome :=
  req ← calls w !! c;
  settled ← settlement c (log w);
  Some (resume I req settled).

(** ** Auxiliary notions used by the properties *)

(** A computation is [stateless] when its result and effects do not depend on
    the provider, it leaves the provider as it found it and invokes no
    completer.  Reads of the message and calls of [emit] are of this kind. *)
Definition stateless {A} (m : M A) : Prop :=
  ∃ r out, invoked out = [] ∧ ∀ this, m this = (r, this, out).

Definition is_digit (c : Ascii.ascii) : bool :=
  bool_decide (c ∈ String.list_ascii_of_string "0123456789").

Definition starts_with_digit (s : string) : bool :=
  match s with
  | String c _ => is_digit c
  | EmptyString => false
  end.

(** *** Reading a message the way the handlers do

    [envelope] is the pair of guards that open both handlers; [response_key]
    is the key under which the handlers look the identifier up, when the
    message carries a present, non-null identifier; [carries k] is ['k' in
    message]. *)
Definition envelope (data : JsValue) : bool :=
  truthy data &&
  match get_field data "jsonrpc" with
  | Ok jsonrpc => strict_eq_str jsonrpc JSON_RPC_VERSION
  | Throw _ => false
  end.

Definition response_key (data : JsValue) : option string :=
  match get_field data "id" with
  | Ok id =>
      if present id then
        match to_string id with
        | Ok key => Some key
        | Throw _ => None
        end
      else None
  | Throw _ => None
  end.

Definition addressed_key (data : JsValue) : option string :=
  if envelope data then response_key data else None.

Definition carries (k : string) (data : JsValue) : bool :=
  match has_property k data with
  | Ok b => b
  | Throw _ => false
  end.

(** The shape of a handler turn on [data]: the configuration is read-only, and
    either the table is left alone and no completer is invoked, or the entry
    under the key the message addresses is deleted and its completer is
    invoked once, or not at all when the message carries neither [result] nor
    [error]. *)
Definition turn_shape {A} (key : option string) (data : JsValue)
    (this : IFrameEthereumProvider)
    (res : Result A * IFrameEthereumProvider * list Effect) : Prop :=
  let '(_, this', out) := res in
  targetOrigin this' = targetOrigin this ∧
  timeoutMilliseconds this' = timeoutMilliseconds this ∧
  ((completers this' = completers this ∧ invoked out = []) ∨
   (∃ k c, key = Some k ∧ completers this !! k = Some c ∧
           completers this' = delete k (completers this) ∧
           (invoked out = [c] ∨
            (invoked out = [] ∧ carries "error" data = false
                              ∧ carries "result" data = false)))).

Definition request_method (req : Request) : string :=
  match req with
  | SendReq method _ => method
  | SendAsyncReq payload => payload_method payload
  end.

Definition request_params (req : Request) : JsValue :=
  match req with
  | SendReq _ params => params
  | SendAsyncReq payload => default JUndefined (payload_params payload)
  end.

(** What the event loop relies on, and both revisions provide: issuing either
    fails before touching anything or registers, posts and arms in this
    order; a timer whose identifier is still registered rejects and
    unregisters; a handler turn has the shape above. *)
Class Lawful (I : Impl) : Prop := {
  issue_run req window draw c this :
    issue I req window draw c this =
      if isEmbeddedInIFrame window then
        (Ok c, with_completers <[getUniqueId draw := c]> this,
         [ PostMessage
             (request_payload (getUniqueId draw) (request_method req) (request_params req))
             (targetOrigin this);
           SetTimeout (getUniqueId draw) (timeoutMilliseconds this) ])
      else (Throw NOT_EMBEDDED, this, []);
  timer_run id this :
    ∃ message,
      timer I id this =
        match slot id (completers this) with
        | Own c => (Ok tt, with_completers (delete id) this, [Reject c (ErrorObj message)])
        | Inherited => (Throw TypeErrorObj, this, [])
        | Absent => (Ok tt, this, [])
        end;
  handler_run data this :
    turn_shape (addressed_key data) data this (handler I data this);
}.

(** How often [c] occurs among invoked completers. *)
Definition tally (c : nat) (cs : list nat) : nat :=
  length (filter (λ c', c' = c) cs).

(** The calls that failed before they registered. *)
Definition failures (entries : list Entry) : list nat :=
  omap (λ x, match x with Failed c _ => Some c | _ => None end) entries.

(** The bookkeeping invariant of the event loop: registered completers belong
    to issued calls that did not fail, were never invoked, and sit under one
    key only; no completer was invoked twice. *)
Record consistent (w : World) : Prop := {
  table_bound id c :
    completers (provider w) !! id = Some c → (c < length (calls w))%nat;
  table_fresh id c :
    completers (provider w) !! id = Some c → invocations c (log w) = 0%nat;
  table_inj id1 id2 c :
    completers (provider w) !! id1 = Some c →
    completers (provider w) !! id2 = Some c → id1 = id2;
  log_bound c :
    (length (calls w) ≤ c)%nat → invocations c (log w) = 0%nat;
  at_most_once c :
    (invocations c (log w) ≤ 1)%nat;
  failed_bound c :
    c ∈ failures (log w) → (c < length (calls w))%nat;
  table_unfailed id c :
    completers (provider w) !! id = Some c → c ∉ failures (log w);
}.

(** The two revisions, as one family. *)
Inductive Revision : Type := Rev1 | Rev2.

Definition impl (rev : Revision) : Impl :=
  match rev with
  | Rev1 => impl1
  | Rev2 => impl2
  end.

Definition timeout_message (rev : Revision) (id : string) (ms : Z) : string :=
  match rev with
  | Rev1 => V1.timeout_message id ms
  | Rev2 => V2.timeout_message id ms
  end.

(** How the caller of a request sees a rejection of its call by [e]; the same
    in both revisions. *)
Definition rejection (req : Request) (e : JsError) : Outcome :=
  match req with
  | SendReq _ _ => Rejected e
  | SendAsyncReq _ => CalledBack (Some e) JNull
  end.

(** The envelopes handed to [postMessage] so far. *)
Definition posted (w : World) : list JsValue :=
  omap (λ e, match e with PostMessage payload _ => Some payload | _ => None end)
       (performed (log w)).

(** The events emitted so far. *)
Definition emitted (w : World) : list (string * list JsValue) :=
  omap (λ e, match e with Emit event args => Some (event, args) | _ => None end)
       (performed (log w)).

(** The event names of the [switch], and the arguments each event is emitted
    with when [message.params] is the array [items]. *)
Definition recognized : list string :=
  ["notification"; "connect"; "close"; "chainChanged"; "networkChanged"; "accountsChanged"].

Definition event_args (name : string) (items : list JsValue) : list JsValue :=
  if String.eqb name "notification" then [JArr items]
  else if String.eqb name "connect" then []
  else if String.eqb name "close"
       then [default JUndefined (items !! 0%nat); default JUndefined (items !! 1%nat)]
  else [default JUndefined (items !! 0%nat)].

(** An [error] member shaped as an error object: an object whose [message],
    when it has one, is a string. *)
Definition conforming_error (data : JsValue) : bool :=
  match get_field data "error" with
  | Ok (JObj efields) =>
      match assoc "message" efields with
      | None | Some (JStr _) => true
      | Some _ => false
      end
  | _ => false
  end.

(** Completer [c] is under no key of the table. *)
Definition retired (c : nat) (w : World) : Prop :=
  ∀ key, completers (provider w) !! key ≠ Some c.

(** *** Runs without the two ways of losing a call

    A turn [overwrites] when a call issued from a nested window draws an
    identifier that is registered at that moment; it [drops] when a message
    addresses a registered identifier and carries neither [result] nor
    [error].  A run is [clean] when none of its turns does either. *)
Definition overwrites (w : World) (i : Input) : bool :=
  match i with
  | Call window draw _ =>
      isEmbeddedInIFrame window &&
      bool_decide (is_Some (completers (provider w) !! getUniqueId draw))
  | _ => false
  end.

Definition drops (w : World) (i : Input) : bool :=
  match i with
  | Message data =>
      match addressed_key data with
      | Some key =>
          bool_decide (is_Some (completers (provider w) !! key)) &&
          negb (carries "error" data) && negb (carries "result" data)
      | None => false
      end
  | _ => false
  end.

Fixpoint clean (I : Impl) (w : World) (inputs : list Input) : Prop :=
  match inputs with
  | [] => True
  | i :: rest =>
      overwrites w i = false ∧ drops w i = false ∧ clean I (step I w i) rest
  end.

(** Where a call stands: it failed before registering; or it is pending, its
    entry registered and its own timer still armed; or it is completed, one
    of its two callbacks having been invoked, once, and its entry gone. *)
Inductive Standing (w : World) (c : nat) : Prop :=
| Refused :
    c ∈ failures (log w) → invocations c (log w) = 0%nat → retired c w →
    Standing w c
| Pending id :
    completers (provider w) !! id = Some c → (c, id) ∈ timers w →
    invocations c (log w) = 0%nat →
    Standing w c
| Completed :
    invocations c (log w) = 1%nat → retired c w →
    Standing w c.

Definition accounted (w : World) : Prop :=
  ∀ c, (c < length (calls w))%nat → Standing w c.

(** *** Comparing the two revisions

    Where the revisions agree on what they do, they still hand different
    values to a completer: the first resolves with the whole response message
    and lets [send] extract [result], the second resolves with
    [message.result]; and their timeout messages quote the identifier
    differently.  Every other effect is the same on both sides. *)
Inductive effect_sim : Effect → Effect → Prop :=
| sim_resolve c message result :
    has_property "error" message = Ok false →
    get_field message "result" = Ok result →
    effect_sim (Resolve c message) (Resolve c result)
| sim_timeout c id ms :
    effect_sim (Reject c (ErrorObj (V1.timeout_message id ms)))
               (Reject c (ErrorObj (V2.timeout_message id ms)))
| sim_effect e : invoked [e] = [] → effect_sim e e.

Inductive entry_sim : Entry → Entry → Prop :=
| sim_did e1 e2 : effect_sim e1 e2 → entry_sim (Did e1) (Did e2)
| sim_failed c e : entry_sim (Failed c e) (Failed c e)
| sim_uncaught e : entry_sim (Uncaught e) (Uncaught e).

Record agree (w1 w2 : World) : Prop := {
  agree_provider : provider w1 = provider w2;
  agree_calls : calls w1 = calls w2;
  agree_timers : timers w1 = timers w2;
  agree_log : Forall2 entry_sim (log w1) (log w2);
}.

(** The exceptions that escaped a handler so far. *)
Definition uncaught (w : World) : list JsError :=
  omap (λ x, match x with Uncaught e => Some e | _ => None end) (log w).

(** A turn is an [error_response] when its message addresses a registered
    identifier and carries [error]. *)
Definition error_response (w : World) (i : Input) : bool :=
  match i with
  | Message data =>
      match addressed_key data with
      | Some key =>
          bool_decide (is_Some (completers (provider w) !! key)) && carries "error" data
      | None => false
      end
  | _ => false
  end.

Fixpoint error_free (I : Impl) (w : World) (inputs : list Input) : Prop :=
  match inputs with
  | [] => True
  | i :: rest => error_response w i = false ∧ error_free I (step I w i) rest
  end.

(** Outcomes of a [send] call that the two revisions agree on: the same
    value, the same error, or the timeout error of each. *)
Inductive outcome_sim : option Outcome → option Outcome → Prop :=
| sim_unsettled : outcome_sim None None
| sim_fulfilled v : outcome_sim (Some (Fulfilled v)) (Some (Fulfilled v))
| sim_rejected e : outcome_sim (Some (Rejected e)) (Some (Rejected e))
| sim_timed_out id ms :
    outcome_sim (Some (Rejected (ErrorObj (V1.timeout_message id ms))))
                (Some (Rejected (ErrorObj (V2.timeout_message id ms)))).

(** ** Concrete runs used in examples *)

Definition defaults : IFrameEthereumProviderOptions :=
  {| opt_targetOrigin := None; opt_timeoutMilliseconds := None |}.

(** A window nested in another one, and a top-level window. *)
Definition nested : Window := {| self := 1; parent := 0 |}.
Definition toplevel : Window := {| self := 0; parent := 0 |}.

(** One call of [eth_accounts] whose identifier draw is 7, from a nested window. *)
Definition one_call : list Input := [Call nested 7 (SendReq "eth_accounts" (JArr []))].

(** A successful response to that call. *)
Definition result_7 : JsValue :=
  JObj [("jsonrpc", JStr "2.0"); ("id", JStr "7"); ("result", JArr [JStr "0xabc"])].

(** A [close] notification without [params], and one with too few of them. *)
Definition close_without_params : JsValue :=
  JObj [("jsonrpc", JStr "2.0"); ("method", JStr "close")].

Definition close_short_params : JsValue :=
  JObj [("jsonrpc", JStr "2.0"); ("method", JStr "close"); ("params", JArr [])].

(** A message that answers call 7 with neither [result] nor [error]. *)
Definition bare_7 : JsValue :=
  JObj [("jsonrpc", JStr "2.0"); ("id", JStr "7")].

(** An error response to call 7, shaped as the specification words it. *)
Definition unauthorized_7 : JsValue :=
  JObj [("jsonrpc", JStr "2.0"); ("id", JStr "7");
        ("error", JObj [("code", JNum (-32000)); ("reason", JStr "Unauthorized")])].

(** The call of the specification's example, and the same call issued twice
    with the same draw. *)
Definition eth_sign : Request := SendReq "eth_sign" (JArr [JStr "hello"; JStr "world"]).

Definition eth_sign_twice : list Input := [Call nested 7 eth_sign; Call nested 7 eth_sign].

(** A response to call 7 that names the [accountsChanged] event as well. *)
Definition result_and_accounts_7 : JsValue :=
  JObj [("jsonrpc", JStr "2.0"); ("id", JStr "7"); ("result", JStr "0x0");
        ("method", JStr "accountsChanged"); ("params", JArr [JArr [JStr "0xabc"]])].

(** Two calls that draw the same number. *)
Definition twin_calls : list Input :=
  [ Call nested 7 (SendReq "eth_accounts" (JArr []));
    Call nested 7 (SendReq "net_version" (JArr [])) ].

(** One [sendAsync] call answered by a result. *)
Definition async_call : list Input :=
  [ Call nested 7 (SendAsyncReq {| payload_method := "eth_accounts"; payload_params := None |});
    Message result_7 ].

(** ** Notions used by the further properties *)

(** The effects that leave the provider: envelopes posted and timers armed. *)
Definition outbound (out : list Effect) : list Effect :=
  omap (λ e, match e with
             | PostMessage _ _ | SetTimeout _ _ => Some e
             | _ => None
             end) out.

(** A computation is [tame] when it neither posts nor arms a timer. *)
Definition tame {A} (m : M A) : Prop :=
  ∀ this, outbound (m this).2 = [].

(** The envelope a turn hands to [postMessage], if any: one per call issued
    from a nested window. *)
Definition envelope_sent (i : Input) : option JsValue :=
  match i with
  | Call window draw req =>
      if isEmbeddedInIFrame window
      then Some (request_payload (getUniqueId draw) (request_method req) (request_params req))
      else None
  | _ => None
  end.

(** The target origins of the envelopes posted so far, and the delays of the
    timers armed so far. *)
Definition origins (w : World) : list string :=
  omap (λ e, match e with PostMessage _ origin => Some origin | _ => None end)
       (performed (log w)).

Definition delays (w : World) : list Z :=
  omap (λ e, match e with SetTimeout _ ms => Some ms | _ => None end)
       (performed (log w)).

(** Every registered entry has the timer armed by its call still pending. *)
Definition guarded (w : World) : Prop :=
  ∀ id c, completers (provider w) !! id = Some c → (c, id) ∈ timers w.

(** The methods whose events take their arguments from [message.params]. *)
Definition param_methods : list string :=
  ["close"; "chainChanged"; "networkChanged"; "accountsChanged"].

(** Two calls with different draws, and a result response for each. *)
Definition two_calls : list Input :=
  [ Call nested 7 (SendReq "eth_accounts" (JArr []));
    Call nested 8 (SendReq "net_version" (JArr [])) ].

Definition result_8 : JsValue :=
  JObj [("jsonrpc", JStr "2.0"); ("id", JStr "8"); ("result", JStr "1")].

(** A call answered by a result, then a second call that draws the same
    number while the timer of the first is still pending. *)
Definition reused_identifier : list Input :=
  [ Call nested 7 (SendReq "eth_accounts" (JArr []));
    Message result_7;
    Call nested 7 (SendReq "net_version" (JArr [])) ].

(** * Properties *)

(** ** Turns that leave the provider alone *)

Lemma stateless_ret {A} (a : A) : stateless (mret a).
Proof. by exists (Ok a), []. Qed.

Lemma stateless_lift {A} (r : Result A) : stateless (lift r).
Proof. by exists r, []. Qed.

Lemma stateless_emit event args : stateless (tell (Emit event args)).
Proof. by exists (Ok tt), [Emit event args]. Qed.

Lemma invoked_app out1 out2 : invoked (out1 ++ out2) = invoked out1 ++ invoked out2.
Proof. apply omap_app. Qed.

Lemma stateless_bind {A B} (m : M A) (k : A → M B) :
  stateless m → (∀ a, stateless (k a)) → stateless (m ≫= k).
Proof.
  intros (r & out & Hout & Hm) Hk. destruct r as [a|e].
  - destruct (Hk a) as (r' & out' & Hout' & Hk').
    exists r', (out ++ out'). split.
    + by rewrite invoked_app, Hout, Hout'.
    + intros this. unfold mbind, M_bind, bind. by rewrite Hm, Hk'.
  - exists (Throw e), out. split; [done|].
    intros this. unfold mbind, M_bind, bind. by rewrite Hm.
Qed.

Lemma stateless_params_at message i : stateless (params_at message i).
Proof. apply stateless_bind; intros; apply stateless_lift. Qed.

Lemma stateless_dispatch_method message : stateless (dispatch_method message).
Proof.
  unfold dispatch_method, emitNotification, emitConnect, emitClose,
    emitChainChanged, emitNetworkChanged, emitAccountsChanged.
  apply stateless_bind; [apply stateless_lift|]. intros method.
  repeat case_match;
    repeat first
      [ apply stateless_emit | apply stateless_lift | apply stateless_params_at
      | apply (stateless_ret tt) | apply stateless_bind; [|intros ?] ].
Qed.

Lemma stateless_notification_step message : stateless (notification_step message).
Proof.
  apply stateless_bind; [apply stateless_lift|].
  intros []; [apply stateless_dispatch_method | apply (stateless_ret tt)].
Qed.

(** ** Conversions throw type errors only *)

Lemma get_field_throws v k e : get_field v k = Throw e → e = TypeErrorObj.
Proof. destruct v; simpl; congruence. Qed.

Lemma JsValue_nested_ind (P : JsValue → Prop) :
  P JUndefined → P JNull → (∀ b, P (JBool b)) → (∀ n, P (JNum n)) → (∀ s, P (JStr s)) →
  (∀ items, Forall P items → P (JArr items)) →
  (∀ fields, Forall (λ kv, P kv.2) fields → P (JObj fields)) →
  ∀ v, P v.
Proof.
  intros Hu Hn Hb Hz Hs Ha Ho.
  refine (fix IH (v : JsValue) : P v :=
            match v with
            | JUndefined => Hu
            | JNull => Hn
            | JBool b => Hb b
            | JNum n => Hz n
            | JStr s => Hs s
            | JArr items =>
                Ha items ((fix all (l : list JsValue) : Forall P l :=
                             match l with
                             | [] => @List.Forall_nil _ P
                             | x :: rest => @List.Forall_cons _ P x rest (IH x) (all rest)
                             end) items)
            | JObj fields =>
                Ho fields ((fix all (l : list (string * JsValue))
                              : Forall (λ kv, P kv.2) l :=
                              match l with
                              | [] => @List.Forall_nil _ (λ kv, P kv.2)
                              | (k, x) :: rest =>
                                  @List.Forall_cons _ (λ kv, P kv.2) (k, x) rest (IH x) (all rest)
                              end) fields)
            end).
Qed.

Lemma join_throws conv items e :
  Forall (λ x, ∀ e', conv x = Throw e' → e' = TypeErrorObj) items →
  join conv items = Throw e → e = TypeErrorObj.
Proof.
  intros Hall. revert e. induction Hall as [|x rest Hx _ IH]; intros e; [done|].
  simpl. destruct (match x with JUndefined | JNull => Ok EmptyString | _ => conv x end)
    as [sx|e'] eqn:Ex.
  - cbv [mbind Result_bind result_bind]. destruct rest as [|y rest]; [done|].
    destruct (join conv (y :: rest)) as [sr|e''] eqn:Er; [done|].
    intros [= <-]. by apply IH.
  - cbv [mbind Result_bind result_bind]. intros [= <-].
    destruct x; try done; by apply Hx.
Qed.

Lemma to_string_throws v e : to_string v = Throw e → e = TypeErrorObj.
Proof.
  revert e. induction v as [| |b|n|s|items IH|fields _] using JsValue_nested_ind;
    intros e; try (simpl; congruence).
  - simpl. by apply join_throws.
  - simpl. case_bool_decide; congruence.
Qed.

(** ** Generated identifiers are decimal numerals *)

Lemma pretty_N_char_digit x : is_digit (pretty_N_char x) = true.
Proof. unfold pretty_N_char. by repeat case_match. Qed.

Lemma pretty_N_go_digit x s :
  (0 < x)%N ∨ starts_with_digit s = true → starts_with_digit (pretty_N_go x s) = true.
Proof.
  revert s. induction (N.lt_wf_0 x) as [x _ IH]; intros s Hs.
  destruct (decide (x = 0%N)) as [->|Hx].
  - rewrite pretty_N_go_0. destruct Hs as [?|?]; [lia|done].
  - rewrite pretty_N_go_step by lia. apply IH.
    + apply N.div_lt; lia.
    + right. simpl. apply pretty_N_char_digit.
Qed.

Lemma getUniqueId_digit draw : starts_with_digit (getUniqueId draw) = true.
Proof.
  unfold getUniqueId, pretty, pretty_N. case_decide; [done|].
  apply pretty_N_go_digit. left. lia.
Qed.

Lemma getUniqueId_own draw : getUniqueId draw ∉ object_prototype_keys.
Proof.
  intros Hin. pose proof (getUniqueId_digit draw) as Hd.
  unfold object_prototype_keys in Hin.
  repeat (apply elem_of_cons in Hin as [Hin|Hin]; [rewrite Hin in Hd; done|]).
  by apply elem_of_nil in Hin.
Qed.

Lemma getUniqueId_inj draw1 draw2 : getUniqueId draw1 = getUniqueId draw2 → draw1 = draw2.
Proof. apply pretty_N_inj. Qed.

Lemma slot_own key c table : table !! key = Some c → slot key table = Own c.
Proof. unfold slot. by intros ->. Qed.

Lemma slot_generated draw table :
  table !! getUniqueId draw = None → slot (getUniqueId draw) table = Absent.
Proof.
  unfold slot. intros ->. rewrite bool_decide_eq_false_2; [done|].
  apply getUniqueId_own.
Qed.

(** ** The shape of a handler turn *)

Ltac turn_unfold :=
  cbv [mbind mret M_bind M_ret bind ret lift tell read modify throw completer_at].

Lemma turn_shape_idle {A} key data this (r : Result A) out :
  invoked out = [] → turn_shape key data this (r, this, out).
Proof. intros Hout. unfold turn_shape. auto. Qed.

Lemma turn_shape_then {A B} key data this (m : M A) (k : A → M B) :
  turn_shape key data this (m this) → (∀ a, stateless (k a)) →
  turn_shape key data this ((m ≫= k) this).
Proof.
  intros Hm Hk. unfold mbind, M_bind, bind.
  destruct (m this) as [[[a|e] this1] out1]; [|done].
  destruct (Hk a) as (r & out2 & Hout2 & ->).
  unfold turn_shape in *. rewrite invoked_app, Hout2, app_nil_r. done.
Qed.

Lemma slot_cases key table :
  (∃ c, table !! key = Some c ∧ slot key table = Own c) ∨
  (table !! key = None ∧ (slot key table = Inherited ∨ slot key table = Absent)).
Proof.
  unfold slot. destruct (table !! key) as [c|]; [left; eauto|right].
  split; [done|]. case_bool_decide; auto.
Qed.

Ltac shape_idle := by (simpl; split_and!; [done|done|left]).

Ltac shape_hit key c :=
  simpl; split_and!; [done|done|]; right; exists key, c; auto 10.

Lemma V1_response_step_shape message this :
  turn_shape (response_key message) message this (V1.response_step message this).
Proof.
  unfold turn_shape, carries, V1.response_step, response_key, to_property_key.
  turn_unfold.
  destruct (get_field message "id") as [id|e]; [|shape_idle].
  destruct (present id); [|shape_idle].
  destruct (to_string id) as [key|e]; [|shape_idle].
  destruct (slot_cases key (completers this)) as [(c & Hc & ->)|[Hc [-> | ->]]];
    [| |shape_idle].
  - destruct (has_property "error" message) as [[]|e]; [| |shape_idle].
    + shape_hit key c.
    + destruct (has_property "result" message) as [[]|e]; [| |shape_idle];
        shape_hit key c.
  - destruct (has_property "error" message) as [[]|e]; [shape_idle| |shape_idle].
    destruct (has_property "result" message) as [[]|e]; [shape_idle| |shape_idle].
    simpl; split_and!; [done|done|].
    left. split; [|done]. by apply delete_id.
Qed.

Lemma V2_response_step_shape message this :
  turn_shape (response_key message) message this (V2.response_step message this).
Proof.
  unfold turn_shape, carries, V2.response_step, response_key, to_property_key.
  turn_unfold.
  destruct (get_field message "id") as [id|e]; [|shape_idle].
  destruct (present id); [|shape_idle].
  destruct (to_string id) as [key|e]; [|shape_idle].
  destruct (slot_cases key (completers this)) as [(c & Hc & ->)|[Hc [-> | ->]]];
    [| |shape_idle].
  - destruct (has_property "error" message) as [[]|e]; [| |shape_idle].
    + destruct (Result_bind _ _ _ _) as [err|e]; [|shape_idle]. shape_hit key c.
    + destruct (has_property "result" message) as [[]|e]; [| |shape_idle].
      * destruct (get_field message "result") as [result|e]; [|shape_idle].
        shape_hit key c.
      * shape_hit key c.
  - destruct (has_property "error" message) as [[]|e]; [| |shape_idle].
    + destruct (Result_bind _ _ _ _) as [err|e]; shape_idle.
    + destruct (has_property "result" message) as [[]|e]; [| |shape_idle].
      * destruct (get_field message "result") as [result|e]; shape_idle.
      * simpl; split_and!; [done|done|].
        left. split; [|done]. by apply delete_id.
Qed.

Lemma guarded_shape (step : JsValue → M unit) data this :
  (∀ message this, turn_shape (response_key message) message this (step message this)) →
  turn_shape (addressed_key data) data this
    ((if negb (truthy data) then mret tt else
      jsonrpc ← lift (get_field data "jsonrpc");
      if negb (strict_eq_str jsonrpc JSON_RPC_VERSION) then mret tt else
      step data;; notification_step data) this).
Proof.
  intros Hstep. unfold addressed_key, envelope.
  destruct (truthy data); [|by apply turn_shape_idle].
  unfold mbind at 1, M_bind at 1, bind at 1, lift at 1. cbn [negb andb].
  destruct (get_field data "jsonrpc") as [jsonrpc|e]; [|by apply turn_shape_idle].
  destruct (strict_eq_str jsonrpc JSON_RPC_VERSION); [|by apply turn_shape_idle].
  cbn [negb].
  assert (turn_shape (response_key data) data this
            ((step data ≫= λ _ : (), notification_step data) this)) as Hrun.
  { apply turn_shape_then; [apply Hstep|].
    intros _. apply stateless_notification_step. }
  by destruct ((step data ≫= λ _ : (), notification_step data) this) as [[r this'] out].
Qed.

Lemma V1_handler_shape data this :
  turn_shape (addressed_key data) data this (V1.handleParentWindowMessage data this).
Proof. apply (guarded_shape V1.response_step), V1_response_step_shape. Qed.

Lemma V2_handler_shape data this :
  turn_shape (addressed_key data) data this (V2.handleJsonrpcMessage data this).
Proof. apply (guarded_shape V2.response_step), V2_response_step_shape. Qed.

(** ** Both revisions are lawful *)

Lemma V1_execute_run window draw c method params this :
  V1.execute window draw c method params this =
    if isEmbeddedInIFrame window then
      (Ok c, with_completers <[getUniqueId draw := c]> this,
       [ PostMessage (request_payload (getUniqueId draw) method params) (targetOrigin this);
         SetTimeout (getUniqueId draw) (timeoutMilliseconds this) ])
    else (Throw NOT_EMBEDDED, this, []).
Proof. unfold V1.execute. destruct (isEmbeddedInIFrame window); reflexivity. Qed.

Lemma V1_send_run window draw c method params this :
  V1.send window draw c method params this =
    V1.execute window draw c method params this.
Proof.
  unfold V1.send. rewrite V1_execute_run.
  destruct (isEmbeddedInIFrame window) eqn:Hw; simpl; [|done].
  by rewrite V1_execute_run, Hw.
Qed.

Lemma V2_send_run window draw c method params this :
  V2.send window draw c method params this =
    if isEmbeddedInIFrame window then
      (Ok c, with_completers <[getUniqueId draw := c]> this,
       [ PostMessage (request_payload (getUniqueId draw) method params) (targetOrigin this);
         SetTimeout (getUniqueId draw) (timeoutMilliseconds this) ])
    else (Throw NOT_EMBEDDED, this, []).
Proof. unfold V2.send. destruct (isEmbeddedInIFrame window); reflexivity. Qed.

Lemma V1_timeout_run id this :
  V1.timeout_callback id this =
    match slot id (completers this) with
    | Own c => (Ok tt, with_completers (delete id) this,
                [Reject c (ErrorObj (V1.timeout_message id (timeoutMilliseconds this)))])
    | Inherited => (Throw TypeErrorObj, this, [])
    | Absent => (Ok tt, this, [])
    end.
Proof. unfold V1.timeout_callback. turn_unfold. by destruct (slot _ _). Qed.

Lemma V2_timeout_run id this :
  V2.timeout_callback id this =
    match slot id (completers this) with
    | Own c => (Ok tt, with_completers (delete id) this,
                [Reject c (ErrorObj (V2.timeout_message id (timeoutMilliseconds this)))])
    | Inherited => (Throw TypeErrorObj, this, [])
    | Absent => (Ok tt, this, [])
    end.
Proof. unfold V2.timeout_callback. turn_unfold. by destruct (slot _ _). Qed.

Global Instance impl1_lawful : Lawful impl1.
Proof.
  split.
  - intros [method params|payload] window draw c this; simpl.
    + by rewrite V1_send_run, V1_execute_run.
    + unfold V1.sendAsync. by rewrite V1_execute_run.
  - intros id this. eexists. apply V1_timeout_run.
  - apply V1_handler_shape.
Qed.

Global Instance impl2_lawful : Lawful impl2.
Proof.
  split.
  - intros [method params|payload] window draw c this; simpl.
    + by rewrite V2_send_run.
    + unfold V2.sendAsync. by rewrite V2_send_run.
  - intros id this. eexists. apply V2_timeout_run.
  - apply V2_handler_shape.
Qed.

(** ** Counting invocations *)

Lemma performed_app l1 l2 : performed (l1 ++ l2) = performed l1 ++ performed l2.
Proof. apply omap_app. Qed.

Lemma performed_did out : performed (Did <$> out) = out.
Proof. induction out as [|e out IH]; [done|]. simpl. f_equal. apply IH. Qed.

Lemma performed_escaped {A} (r : Result A) : performed (escaped r) = [].
Proof. by destruct r. Qed.

Lemma tally_app c l1 l2 : tally c (l1 ++ l2) = (tally c l1 + tally c l2)%nat.
Proof. unfold tally. by rewrite filter_app, length_app. Qed.

Lemma tally_one c c' : tally c [c'] = if decide (c' = c) then 1%nat else 0%nat.
Proof. unfold tally. rewrite filter_cons. by case_decide. Qed.

Lemma invocations_turn c entries out tail :
  performed tail = [] →
  invocations c (entries ++ (Did <$> out) ++ tail)
  = (invocations c entries + tally c (invoked out))%nat.
Proof.
  intros Htail. unfold invocations.
  rewrite !performed_app, performed_did, Htail, app_nil_r, invoked_app.
  apply tally_app.
Qed.

Lemma invocations_quiet c entries extra :
  invoked (performed extra) = [] →
  invocations c (entries ++ extra) = invocations c entries.
Proof.
  intros Hextra. unfold invocations.
  by rewrite performed_app, invoked_app, Hextra, app_nil_r.
Qed.

Lemma failures_app l1 l2 : failures (l1 ++ l2) = failures l1 ++ failures l2.
Proof. apply omap_app. Qed.

Lemma failures_did out : failures (Did <$> out) = [].
Proof. by induction out. Qed.

Lemma failures_escaped {A} (r : Result A) : failures (escaped r) = [].
Proof. by destruct r. Qed.

Lemma failures_turn entries out tail :
  failures tail = [] → failures (entries ++ (Did <$> out) ++ tail) = failures entries.
Proof.
  intros Htail. by rewrite !failures_app, failures_did, Htail, !app_nil_r.
Qed.

Lemma timer_shape I `{!Lawful I} id data this :
  turn_shape (Some id) data this (timer I id this).
Proof.
  destruct (timer_run id this) as [message ->].
  destruct (slot_cases id (completers this)) as [(c & Hc & ->)|[Hc [-> | ->]]].
  - shape_hit id c.
  - shape_idle.
  - shape_idle.
Qed.

(** A handler or timer turn keeps the invariant. *)
Lemma consistent_turn {A} key data w (r : Result A) this out tail :
  consistent w →
  turn_shape key data (provider w) (r, this, out) →
  performed tail = [] → failures tail = [] →
  ∀ ts, consistent {| provider := this; calls := calls w; timers := ts;
                      log := log w ++ (Did <$> out) ++ tail |}.
Proof.
  intros Hw (_ & _ & Hshape) Htail Hfail ts.
  destruct Hshape as [[Htab Hout]|(k & c & _ & Hk & Htab & Hout)].
  - split; simpl; intros *;
      rewrite ?Htab, ?invocations_turn, ?failures_turn, ?Hout by done;
      unfold tally; simpl; rewrite ?Nat.add_0_r; apply Hw.
  - assert (∀ c', tally c' (invoked out) = 0%nat ∨
                  (c' = c ∧ tally c' (invoked out) = 1%nat)) as Hcount.
    { intros c'. destruct Hout as [->|[-> _]]; [|by left].
      rewrite tally_one. case_decide; auto. }
    split; simpl; intros *;
      rewrite ?Htab, ?invocations_turn, ?failures_turn by done;
      [| | | | |apply Hw|intros [_ Hid]%lookup_delete_Some; by eapply table_unfailed].
    + intros [_ Hid]%lookup_delete_Some. by eapply table_bound.
    + intros [Hne Hid]%lookup_delete_Some.
      rewrite (table_fresh _ Hw _ _ Hid).
      destruct (Hcount c0) as [->|[-> _]]; [done|].
      destruct Hne. by eapply table_inj.
    + intros [_ H1]%lookup_delete_Some [_ H2]%lookup_delete_Some.
      by eapply table_inj.
    + intros Hc. rewrite (log_bound _ Hw) by done.
      destruct (Hcount c0) as [->|[-> _]]; [done|].
      apply (table_bound _ Hw) in Hk. lia.
    + destruct (Hcount c0) as [->|[-> ->]].
      * rewrite Nat.add_0_r. apply Hw.
      * by rewrite (table_fresh _ Hw _ _ Hk).
Qed.

Lemma consistent_boot o : consistent (boot o).
Proof.
  split; simpl; intros *; rewrite ?lookup_empty;
    try done; try (by intros ?%elem_of_nil); unfold invocations; simpl; lia.
Qed.

Lemma consistent_step I `{!Lawful I} w i : consistent w → consistent (step I w i).
Proof.
  intros Hw. destruct i as [window draw req|data|k]; simpl.
  - rewrite issue_run. destruct (isEmbeddedInIFrame window).
    + split; simpl; intros *;
        rewrite ?length_app, ?invocations_quiet, ?failures_app, ?app_nil_r by done;
        simpl.
      * intros [[_ <-]|[_ Hid]]%lookup_insert_Some; [lia|].
        apply (table_bound _ Hw) in Hid. lia.
      * intros [[_ <-]|[_ Hid]]%lookup_insert_Some.
        -- by apply (log_bound _ Hw).
        -- by eapply table_fresh.
      * intros [[<- <-]|[? H1]]%lookup_insert_Some
               [[<- E]|[? H2]]%lookup_insert_Some; try done.
        -- apply (table_bound _ Hw) in H2. lia.
        -- apply (table_bound _ Hw) in H1. lia.
        -- by eapply table_inj.
      * intros Hc. apply (log_bound _ Hw). lia.
      * apply Hw.
      * intros Hc%(failed_bound _ Hw). lia.
      * intros [[_ <-]|[_ Hid]]%lookup_insert_Some.
        -- intros Hc%(failed_bound _ Hw). lia.
        -- by eapply table_unfailed.
    + split; simpl; intros *;
        rewrite ?length_app, ?invocations_quiet, ?failures_app by done; simpl.
      * intros Hid. apply (table_bound _ Hw) in Hid. lia.
      * by eapply table_fresh.
      * by eapply table_inj.
      * intros Hc. apply (log_bound _ Hw). lia.
      * apply Hw.
      * intros [Hc%(failed_bound _ Hw)|Hc%list_elem_of_singleton]%elem_of_app; lia.
      * intros Hid [Hc|Hc%list_elem_of_singleton]%elem_of_app.
        -- by eapply table_unfailed.
        -- apply (table_bound _ Hw) in Hid. lia.
  - pose proof (handler_run data (provider w)) as Hshape.
    destruct (handler I data (provider w)) as [[r this] out].
    eapply consistent_turn;
      [done|apply Hshape|apply performed_escaped|apply failures_escaped].
  - destruct (timers w !! k) as [[c id]|]; [|done].
    pose proof (timer_shape I id JNull (provider w)) as Hshape.
    destruct (timer I id (provider w)) as [[r this] out].
    eapply consistent_turn;
      [done|apply Hshape|apply performed_escaped|apply failures_escaped].
Qed.

Lemma consistent_run I `{!Lawful I} inputs w :
  consistent w → consistent (run I w inputs).
Proof.
  revert w. induction inputs as [|i inputs IH]; intros w Hw; [done|].
  simpl. by apply IH, consistent_step.
Qed.

(** ** What a handler does with a message that addresses a pending call *)

Lemma envelope_object data : envelope data = true → ∃ fields, data = JObj fields.
Proof.
  unfold envelope. intros [_ H]%andb_prop.
  destruct data; simpl in H; try done. eauto.
Qed.

Lemma addressed_key_Some data key :
  addressed_key data = Some key →
  ∃ fields id, data = JObj fields ∧ envelope data = true ∧
    get_field data "id" = Ok id ∧ present id = true ∧ to_string id = Ok key.
Proof.
  unfold addressed_key, response_key. destruct (envelope data) eqn:He; [|done].
  destruct (envelope_object _ He) as [fields ->].
  destruct (get_field _ "id") as [id|] eqn:Hid; [|done].
  destruct (present id) eqn:Hp; [|done].
  destruct (to_string id) as [k|] eqn:Hk; [|done]. intros [= ->].
  exists fields, id. by rewrite Hk.
Qed.

Lemma envelope_guards data :
  envelope data = true →
  truthy data = true ∧
  ∃ jsonrpc, get_field data "jsonrpc" = Ok jsonrpc ∧
             strict_eq_str jsonrpc JSON_RPC_VERSION = true.
Proof.
  unfold envelope. intros [Ht H]%andb_prop. split; [done|].
  destruct (get_field data "jsonrpc") as [jsonrpc|]; [eauto|done].
Qed.

Local Arguments to_string : simpl never.
Local Arguments slot : simpl never.
Local Arguments notification_step : simpl never.
Local Arguments present : simpl never.
Local Arguments strict_eq_str : simpl never.
Local Arguments new_Error : simpl never.

(** The first revision resolves with the whole message when it carries
    [error] or [result], deletes the entry in any case, and goes on to the
    notification dispatch. *)
Lemma V1_handler_hit data this key c :
  addressed_key data = Some key → completers this !! key = Some c →
  V1.handleParentWindowMessage data this =
    let '(r, _, out) := notification_step data this in
    (r, with_completers (delete key) this,
     (if carries "error" data || carries "result" data
      then [Resolve c data] else []) ++ out).
Proof.
  intros (fields & id & -> & He & Hid & Hp & Hkey)%addressed_key_Some Hc.
  destruct (envelope_guards _ He) as (Ht & jsonrpc & Hj & Hv).
  destruct (stateless_notification_step (JObj fields)) as (r & out & _ & Hn).
  unfold V1.handleParentWindowMessage, V1.response_step, to_property_key, carries.
  simpl in Hid, Hj. simplify_eq. turn_unfold. simpl.
  rewrite Hv, Hp; simpl. rewrite Hkey; simpl. rewrite !(slot_own _ _ _ Hc), !Hn; simpl.
  repeat case_bool_decide; simpl; by rewrite ?Hn.
Qed.

(** The second revision rejects with [new Error(message.error.message)] when
    the message carries [error] (and throws before deleting when that
    expression throws), resolves with [message.result] when it carries
    [result], deletes the entry, and goes on to the notification dispatch. *)
Lemma V2_handler_hit data this key c :
  addressed_key data = Some key → completers this !! key = Some c →
  V2.handleJsonrpcMessage data this =
    let '(r, _, out) := notification_step data this in
    if carries "error" data then
      match (e ← get_field data "error"; m ← get_field e "message"; new_Error m) with
      | Ok error => (r, with_completers (delete key) this, Reject c error :: out)
      | Throw e => (Throw e, this, [])
      end
    else
      (r, with_completers (delete key) this,
       (if carries "result" data
        then [Resolve c (default JUndefined (assoc "result" (match data with
                                                             | JObj fields => fields
                                                             | _ => []
                                                             end)))]
        else []) ++ out).
Proof.
  intros (fields & id & -> & He & Hid & Hp & Hkey)%addressed_key_Some Hc.
  destruct (envelope_guards _ He) as (Ht & jsonrpc & Hj & Hv).
  destruct (stateless_notification_step (JObj fields)) as (r & out & _ & Hn).
  unfold V2.handleJsonrpcMessage, V2.response_step, to_property_key, carries.
  simpl in Hid, Hj. simplify_eq. turn_unfold. simpl.
  rewrite Hv, Hp; simpl. rewrite Hkey; simpl. rewrite !(slot_own _ _ _ Hc), !Hn; simpl.
  case_bool_decide; simpl.
  - destruct (Result_bind _ _ _ _); simpl; by rewrite ?Hn.
  - case_bool_decide; simpl; by rewrite ?Hn.
Qed.

Global Instance impl_lawful rev : Lawful (impl rev).
Proof. destruct rev; apply _. Qed.

(** ** How a promise settles *)

Lemma settlement_fresh c entries extra :
  invocations c entries = 0%nat → c ∉ failures entries →
  settlement c (entries ++ extra) = settlement c extra.
Proof.
  unfold invocations, settlement.
  induction entries as [|x entries IH]; [done|]. intros Hinv Hfail.
  destruct x as [[c' v|c' e| | |]|c' e|e]; simpl in *;
    try (by apply IH);
    try (rewrite filter_cons in Hinv);
    repeat case_decide; subst; simpl in *; try done; try (by apply IH).
  - set_solver.
  - apply IH; [done|]. set_solver.
Qed.

Lemma settlement_pending w id c extra :
  consistent w → completers (provider w) !! id = Some c →
  settlement c (log w ++ extra) = settlement c extra.
Proof.
  intros Hw Hc. apply settlement_fresh.
  - by eapply table_fresh.
  - by eapply table_unfailed.
Qed.

Lemma settlement_next w extra :
  consistent w →
  settlement (length (calls w)) (log w ++ extra) = settlement (length (calls w)) extra.
Proof.
  intros Hw. apply settlement_fresh.
  - by apply (log_bound _ Hw).
  - intros Hc%(failed_bound _ Hw). lia.
Qed.

Lemma not_embedded window : parent window = self window → isEmbeddedInIFrame window = false.
Proof. unfold isEmbeddedInIFrame. intros ->. by rewrite Nat.eqb_refl. Qed.

(** ** Calls issued outside an iframe *)

(** C7: a call issued while [window.parent === window.self] fails at once with
    the not-embedded error: both revisions leave the provider (hence the
    pending-call table) as it was, arm no timer, post nothing, and the caller
    sees the rejection (or the callback called with the error). *)
Theorem not_embedded_fails rev w window draw req :
  consistent w →
  parent window = self window →
  let call := length (calls w) in
  let w' := step (impl rev) w (Call window draw req) in
  issue (impl rev) req window draw call (provider w) = (Throw NOT_EMBEDDED, provider w, []) ∧
  provider w' = provider w ∧
  timers w' = timers w ∧
  log w' = log w ++ [Failed call NOT_EMBEDDED] ∧
  outcome (impl rev) w' call =
    Some (match req with
          | SendReq _ _ => Rejected NOT_EMBEDDED
          | SendAsyncReq _ => CalledBack (Some NOT_EMBEDDED) JNull
          end).
Proof.
  intros Hw Hwin%not_embedded call w'. subst call w'.
  unfold outcome. simpl. rewrite issue_run, Hwin. simpl.
  rewrite app_nil_r, list_lookup_middle by done. simpl.
  rewrite settlement_next by done.
  split_and!; try done.
  unfold settlement. simpl. rewrite decide_True by done. simpl.
  by destruct rev, req.
Qed.

Lemma not_embedded_fails_witness :
  outcome (impl Rev1)
    (step (impl Rev1) (boot defaults) (Call toplevel 7 (SendReq "eth_accounts" (JArr []))))
    0 = Some (Rejected NOT_EMBEDDED).
Proof.
  apply (not_embedded_fails Rev1 (boot defaults) toplevel 7 (SendReq "eth_accounts" (JArr []))).
  - apply consistent_boot.
  - reflexivity.
Defined.

Lemma resume_rejection rev req e : resume (impl rev) req (Throw e) = rejection req e.
Proof. by destruct rev, req. Qed.

Lemma timer_run_rev rev id this :
  timer (impl rev) id this =
    match slot id (completers this) with
    | Own c => (Ok tt, with_completers (delete id) this,
                [Reject c (ErrorObj (timeout_message rev id (timeoutMilliseconds this)))])
    | Inherited => (Throw TypeErrorObj, this, [])
    | Absent => (Ok tt, this, [])
    end.
Proof. destruct rev; [apply V1_timeout_run|apply V2_timeout_run]. Qed.

(** ** Timer expiry *)



(** ** Completers that left the table are never invoked again *)

Lemma settlement_quiet c entries extra :
  c ∉ invoked (performed extra) → c ∉ failures extra →
  settlement c (entries ++ extra) = settlement c entries.
Proof.
  intros Hinv Hfail. unfold settlement. rewrite omap_app.
  match goal with |- head (_ ++ ?l) = _ => assert (l = []) as -> end;
    [|by rewrite app_nil_r].
  induction extra as [|x extra IH]; [done|].
  destruct x as [[c' v|c' e| | |]|c' e|e]; simpl in *;
    repeat case_decide; subst; try (by apply IH); set_solver.
Qed.

Lemma invocations_absent c entries extra :
  c ∉ invoked (performed extra) →
  invocations c (entries ++ extra) = invocations c entries.
Proof.
  intros Hinv. unfold invocations.
  rewrite performed_app, invoked_app, filter_app, length_app.
  match goal with |- (_ + length ?l)%nat = _ => assert (l = []) as -> end;
    [|simpl; lia].
  induction (invoked (performed extra)) as [|c' l IH]; [done|].
  rewrite filter_cons. case_decide; [set_solver|]. apply IH. set_solver.
Qed.

(** What one turn appends to the log says nothing about a retired completer of
    an issued call, and leaves it retired. *)
Lemma step_retired I `{!Lawful I} w i c :
  (c < length (calls w))%nat → retired c w →
  retired c (step I w i) ∧
  ∃ extra, log (step I w i) = log w ++ extra ∧
           (c ∉ invoked (performed extra)) ∧ (c ∉ failures extra).
Proof.
  intros Hc Hret.
  assert (∀ {A} key data (r : Result A) this out ts,
    turn_shape key data (provider w) (r, this, out) →
    let w' := {| provider := this; calls := calls w; timers := ts;
                 log := log w ++ (Did <$> out) ++ escaped r |} in
    retired c w' ∧
    ∃ extra, log w' = log w ++ extra ∧
             (c ∉ invoked (performed extra)) ∧ (c ∉ failures extra)) as Hturn.
  { intros A key data r this out ts (_ & _ & Hshape). simpl. split.
    - intros k. simpl.
      destruct Hshape as [[-> _]|(k' & c' & _ & _ & -> & _)]; [apply Hret|].
      intros [_ Hk]%lookup_delete_Some. by apply (Hret k).
    - eexists. split; [done|].
      rewrite performed_app, performed_did, performed_escaped, app_nil_r.
      rewrite failures_app, failures_did, failures_escaped.
      split; [|set_solver].
      destruct Hshape as [[_ ->]|(k' & c' & _ & Hk' & _ & [->|[-> _]])];
        [set_solver| |set_solver].
      intros ->%list_elem_of_singleton. by apply (Hret k'). }
  destruct i as [window draw req|data|k]; simpl.
  - rewrite issue_run. destruct (isEmbeddedInIFrame window); simpl.
    + split.
      * intros key. simpl. intros [[_ Heq]|[_ Hk]]%lookup_insert_Some; [lia|].
        by apply (Hret key).
      * eexists. split; [done|]. simpl. split; apply not_elem_of_nil.
    + split; [done|]. eexists. split; [done|]. simpl.
      split; [set_solver|]. intros ->%list_elem_of_singleton. lia.
  - pose proof (handler_run data (provider w)) as Hshape.
    destruct (handler I data (provider w)) as [[r this] out].
    by eapply Hturn.
  - destruct (timers w !! k) as [[c' id]|].
    + pose proof (timer_shape I id JNull (provider w)) as Hshape.
      destruct (timer I id (provider w)) as [[r this] out].
      by eapply Hturn.
    + split; [done|]. exists []. rewrite app_nil_r.
      split_and!; [done|apply not_elem_of_nil..].
Qed.

Lemma calls_step I w i : (length (calls w) ≤ length (calls (step I w i)))%nat.
Proof.
  destruct i as [window draw req|data|k]; simpl.
  - destruct (issue _ _ _ _ _ _) as [[r this] out]. simpl. rewrite length_app. lia.
  - by destruct (handler _ _ _) as [[r this] out].
  - destruct (timers w !! k) as [[c id]|]; [|done].
    by destruct (timer _ _ _) as [[r this] out].
Qed.

Lemma retired_forever I `{!Lawful I} inputs w c :
  (c < length (calls w))%nat → retired c w →
  retired c (run I w inputs) ∧
  invocations c (log (run I w inputs)) = invocations c (log w) ∧
  settlement c (log (run I w inputs)) = settlement c (log w).
Proof.
  revert w. induction inputs as [|i inputs IH]; intros w Hc Hret; [done|].
  simpl. destruct (step_retired I w i c Hc Hret) as (Hret' & extra & Hlog & Hinv & Hfail).
  destruct (IH (step I w i)) as (Hret'' & -> & ->); [|done|].
  { pose proof (calls_step I w i). lia. }
  rewrite Hlog. split_and!; [done| |].
  - by apply invocations_absent.
  - by apply settlement_quiet.
Qed.

(** ** Messages that make a handler throw *)

(** C3 (the code departs from the claim): a [close] notification without
    [params] makes both handlers throw a [TypeError] out of the listener, which
    the event loop reports as uncaught; with an empty [params] the handlers do
    not throw but still emit [close], with two [undefined] arguments. *)
Theorem close_without_params_throws rev w :
  handler (impl rev) close_without_params (provider w) = (Throw TypeErrorObj, provider w, []) ∧
  log (step (impl rev) w (Message close_without_params)) = log w ++ [Uncaught TypeErrorObj] ∧
  handler (impl rev) close_short_params (provider w) =
    (Ok tt, provider w, [Emit "close" [JUndefined; JUndefined]]).
Proof.
  assert (handler (impl rev) close_without_params (provider w)
          = (Throw TypeErrorObj, provider w, [])) as Hthrow
    by (by destruct rev).
  split_and!; [done| |by destruct rev].
  simpl. by rewrite Hthrow.
Qed.

(** ** A matching message with neither [result] nor [error] *)

Lemma bare_response_shape rev data this key c :
  addressed_key data = Some key → completers this !! key = Some c →
  carries "error" data = false → carries "result" data = false →
  ∃ r out, handler (impl rev) data this = (r, with_completers (delete key) this, out) ∧
           invoked out = [].
Proof.
  intros Hkey Hc Herr Hres.
  destruct (stateless_notification_step data) as (r & out & Hout & Hn).
  exists r, out. split; [|done]. destruct rev; simpl.
  - by rewrite (V1_handler_hit _ _ _ _ Hkey Hc), Hn, Herr, Hres.
  - by rewrite (V2_handler_hit _ _ _ _ Hkey Hc), Hn, Herr, Hres.
Qed.

(** C2 (the code departs from the claim): after one call whose identifier is
    7, the message [{jsonrpc: "2.0", id: "7"}] empties the pending-call table
    in both revisions without invoking the completer; the call's timer then
    finds nothing to reject, and whatever happens next the caller never
    observes an outcome. *)
Theorem bare_response_loses_call rev :
  let w0 := run (impl rev) (boot defaults) one_call in
  let w := step (impl rev) w0 (Message bare_7) in
  let w' := step (impl rev) w (Timer 0) in
  completers (provider w0) !! "7" = Some 0%nat ∧
  completers (provider w) !! "7" = None ∧
  invocations 0 (log w) = 0%nat ∧
  log w' = log w ∧
  ∀ inputs,
    invocations 0 (log (run (impl rev) w inputs)) = 0%nat ∧
    outcome (impl rev) (run (impl rev) w inputs) 0 = None.
Proof.
  intros w0 w w'.
  assert (completers (provider w) = ∅ ∧ settlement 0 (log w) = None ∧
          invocations 0 (log w) = 0%nat ∧ length (calls w) = 1%nat)
    as (Htab & Hset & Hinv & Hlen) by (by destruct rev).
  split_and!; [by destruct rev..|].
  intros inputs.
  destruct (retired_forever (impl rev) inputs w 0) as (_ & -> & Hkeep).
  - lia.
  - intros key. by rewrite Htab, lookup_empty.
  - split; [done|]. unfold outcome. rewrite Hkeep, Hset.
    by destruct (calls _ !! 0%nat).
Qed.

(** ** The request envelope *)

(** C5 (counterexample): the envelope posted for [eth_sign] with
    [["hello","world"]] has no [protocolVersion] member, and two such calls
    that draw the same number carry the same [id]. *)
Lemma eth_sign_envelope_counterexample :
  ∃ p1 p2,
    posted (run (impl Rev1) (boot defaults) eth_sign_twice) = [p1; p2] ∧
    posted (run (impl Rev2) (boot defaults) eth_sign_twice) = [p1; p2] ∧
    has_property "protocolVersion" p1 = Ok false ∧
    get_field p1 "protocolVersion" ≠ Ok (JStr "2.0") ∧
    get_field p1 "id" = get_field p2 "id".
Proof. by eexists _, _. Qed.

(** C5 (amended): a call issued from a nested window hands exactly one
    envelope to [postMessage]: the object with [jsonrpc] equal to ["2.0"], the
    method and the params as given and a string [id], the decimal numeral of
    the draw; it has no [protocolVersion] member, and calls with different
    draws carry different identifiers. *)
Theorem request_envelope rev w window draw method params :
  isEmbeddedInIFrame window = true →
  let w' := step (impl rev) w (Call window draw (SendReq method params)) in
  ∃ payload,
    posted w' = posted w ++ [payload] ∧
    payload = JObj [ ("jsonrpc", JStr "2.0"); ("id", JStr (getUniqueId draw));
                     ("method", JStr method); ("params", params) ] ∧
    get_field payload "jsonrpc" = Ok (JStr "2.0") ∧
    has_property "protocolVersion" payload = Ok false ∧
    get_field payload "method" = Ok (JStr method) ∧
    get_field payload "params" = Ok params ∧
    get_field payload "id" = Ok (JStr (getUniqueId draw)) ∧
    starts_with_digit (getUniqueId draw) = true ∧
    ∀ draw', draw' ≠ draw → getUniqueId draw' ≠ getUniqueId draw.
Proof.
  intros Hwin w'. subst w'. eexists. split.
  - unfold posted. simpl. rewrite issue_run, Hwin. simpl.
    by rewrite performed_app, omap_app.
  - split_and!; try done.
    + apply getUniqueId_digit.
    + intros draw' Hne Heq. by apply Hne, getUniqueId_inj.
Qed.

Lemma request_envelope_witness :
  posted (step (impl Rev1) (boot defaults) (Call nested 7 eth_sign)) =
    [JObj [ ("jsonrpc", JStr "2.0"); ("id", JStr "7"); ("method", JStr "eth_sign");
            ("params", JArr [JStr "hello"; JStr "world"]) ]].
Proof.
  destruct (request_envelope Rev1 (boot defaults) nested 7 "eth_sign"
              (JArr [JStr "hello"; JStr "world"]) eq_refl) as (payload & Hposted & -> & _).
  exact Hposted.
Defined.

(** ** Error responses *)

Lemma carries_true k data : carries k data = true → has_property k data = Ok true.
Proof. unfold carries. by destruct (has_property k data) as [[]|]. Qed.

Lemma outcome_message rev w data c key req r this out :
  consistent w → completers (provider w) !! key = Some c → calls w !! c = Some req →
  handler (impl rev) data (provider w) = (r, this, out) →
  outcome (impl rev) (step (impl rev) w (Message data)) c =
    resume (impl rev) req <$> settlement c ((Did <$> out) ++ escaped r).
Proof.
  intros Hw Hc Hreq Hrun. unfold outcome. simpl. rewrite Hrun. simpl.
  rewrite Hreq. simpl. rewrite (settlement_pending _ _ _ _ Hw Hc).
  by destruct (settlement _ _).
Qed.

Lemma new_Error_plain v e : new_Error v = Ok e → ∃ text, e = ErrorObj text.
Proof.
  unfold new_Error. destruct v; try (intros [= <-]; eauto);
    destruct (to_string _); cbv [mbind Result_bind result_bind];
    intros [= <-]; eauto.
Qed.

(** C4 (counterexample): in the second revision the call answered by
    [{error: {code: -32000, reason: "Unauthorized"}}] is rejected with a plain
    [Error] whose message is empty, not with an [RpcError] exposing the code
    and the reason. *)
Lemma unauthorized_counterexample :
  let w := run (impl Rev2) (boot defaults) (one_call ++ [Message unauthorized_7]) in
  outcome (impl Rev2) w 0 = Some (Rejected (ErrorObj EmptyString)) ∧
  ¬ ∃ message,
      outcome (impl Rev2) w 0 =
        Some (Rejected (RpcErrorObj message (JNum (-32000)) (JStr "Unauthorized"))).
Proof. split; [done|]. by intros [message Hm]. Qed.

(** C4 (amended): when a message that addresses the pending entry of a [send]
    call carries an [error] member with code -32000 and reason
    ["Unauthorized"], the first revision rejects the call with an [RpcError]
    whose [code] is -32000 and whose [reason] is ["Unauthorized"]; the second
    revision rejects it with the plain [Error] built from [error.message],
    which exposes neither. *)
Theorem unauthorized_rejection w c key method params data error :
  consistent w →
  calls w !! c = Some (SendReq method params) →
  addressed_key data = Some key →
  completers (provider w) !! key = Some c →
  carries "error" data = true →
  get_field data "error" = Ok error →
  get_field error "code" = Ok (JNum (-32000)) →
  get_field error "reason" = Ok (JStr "Unauthorized") →
  outcome (impl Rev1) (step (impl Rev1) w (Message data)) c =
    Some (Rejected (RpcErrorObj "JSON RPC returned an error code -32000: Unauthorized"
                      (JNum (-32000)) (JStr "Unauthorized"))) ∧
  ∀ message plain,
    get_field error "message" = Ok message → new_Error message = Ok plain →
    outcome (impl Rev2) (step (impl Rev2) w (Message data)) c = Some (Rejected plain) ∧
    ∃ text, plain = ErrorObj text.
Proof.
  intros Hw Hreq Hkey Hc Hcarries Herror Hcode Hreason.
  destruct (stateless_notification_step data) as (r & out & Hout & Hn). split.
  - erewrite (outcome_message Rev1) by
      (try done; simpl; by rewrite (V1_handler_hit _ _ _ _ Hkey Hc), Hn, Hcarries).
    unfold settlement. simpl. rewrite decide_True by done. simpl.
    unfold V1.send_resume. simpl.
    rewrite (carries_true _ _ Hcarries). simpl. rewrite Herror. simpl.
    rewrite Hcode. simpl. by rewrite Hreason.
  - intros message plain Hmessage Hplain.
    assert ((e ← get_field data "error"; m ← get_field e "message"; new_Error m) = Ok plain)
      as Hbuild by (rewrite Herror; simpl; rewrite Hmessage; simpl; done).
    split.
    + erewrite (outcome_message Rev2) by
        (try done; simpl;
         by rewrite (V2_handler_hit _ _ _ _ Hkey Hc), Hn, Hcarries, Hbuild).
      unfold settlement. simpl. by rewrite decide_True.
    + by eapply new_Error_plain.
Qed.

Lemma unauthorized_rejection_witness :
  outcome (impl Rev1)
    (step (impl Rev1) (run (impl Rev1) (boot defaults) one_call) (Message unauthorized_7)) 0 =
  Some (Rejected (RpcErrorObj "JSON RPC returned an error code -32000: Unauthorized"
                    (JNum (-32000)) (JStr "Unauthorized"))).
Proof.
  apply (unauthorized_rejection (run (impl Rev1) (boot defaults) one_call) 0 "7"
           "eth_accounts" (JArr []) unauthorized_7
           (JObj [("code", JNum (-32000)); ("reason", JStr "Unauthorized")])).
  - apply consistent_run, consistent_boot; apply _.
  - reflexivity.
  - reflexivity.
  - vm_compute. reflexivity.
  - reflexivity.
  - reflexivity.
  - reflexivity.
  - reflexivity.
Defined.

(** ** Responses that are notifications as well *)

Lemma get_field_str data k s :
  get_field data k = Ok (JStr s) → has_property k data = Ok true.
Proof.
  destruct data; simpl; try done. intros [= H].
  destruct (assoc k fields); [|done]. by rewrite bool_decide_eq_true_2.
Qed.

Lemma notification_emits data name items this :
  get_field data "method" = Ok (JStr name) → name ∈ recognized →
  get_field data "params" = Ok (JArr items) →
  notification_step data this = (Ok tt, this, [Emit name (event_args name items)]).
Proof.
  intros Hm Hname Hp. unfold notification_step, dispatch_method, params_at.
  turn_unfold. rewrite (get_field_str _ _ _ Hm), Hm, Hp.
  unfold recognized in Hname.
  repeat (apply elem_of_cons in Hname as [->|Hname]; [done|]).
  by apply elem_of_nil in Hname.
Qed.

Lemma conforming_error_builds data :
  conforming_error data = true →
  ∃ text, (e ← get_field data "error"; m ← get_field e "message"; new_Error m)
          = Ok (ErrorObj text).
Proof.
  unfold conforming_error. destruct (get_field data "error") as [[]|]; try done.
  cbv [mbind Result_bind result_bind get_field new_Error].
  destruct (assoc "message" fields) as [[]|]; try done; simpl; eauto.
Qed.

(** A message that passes the guards and either has no identifier or has one
    that is not registered goes straight to the notification dispatch. *)
Lemma handler_no_match rev data this id :
  envelope data = true →
  get_field data "id" = Ok id →
  present id = false ∨ (∃ key, to_string id = Ok key ∧ slot key (completers this) = Absent) →
  handler (impl rev) data this = notification_step data this.
Proof.
  intros He Hid Hno.
  destruct (envelope_object _ He) as [fields ->].
  destruct (envelope_guards _ He) as (Ht & jsonrpc & Hj & Hv).
  destruct (stateless_notification_step (JObj fields)) as (r & out & _ & Hn).
  simpl in Hid, Hj. simplify_eq.
  destruct rev; simpl;
    [unfold V1.handleParentWindowMessage, V1.response_step
    |unfold V2.handleJsonrpcMessage, V2.response_step];
    turn_unfold; simpl; rewrite Hv; simpl;
    (destruct Hno as [Hp|(key & Hkey & Hslot)];
     [rewrite Hp; simpl; by rewrite !Hn
     |destruct (present _); simpl; [|by rewrite !Hn];
      rewrite Hkey; simpl; rewrite Hslot; simpl; by rewrite !Hn]).
Qed.



(** ** Two calls under one identifier *)

Lemma calls_run I inputs w c req :
  calls w !! c = Some req → calls (run I w inputs) !! c = Some req.
Proof.
  revert w. induction inputs as [|i inputs IH]; intros w Hc; [done|].
  simpl. apply IH. destruct i as [window draw req'|data|k]; simpl.
  - destruct (issue _ _ _ _ _ _) as [[r this] out]. simpl.
    by apply lookup_app_l_Some.
  - by destruct (handler _ _ _) as [[r this] out].
  - destruct (timers w !! k) as [[c' id]|]; [|done].
    by destruct (timer _ _ _) as [[r this] out].
Qed.

(** C10 (counterexample): with two calls under one identifier and both timers
    fired, the first call was never completed, but the second was completed
    exactly once: exactly-once completion is not violated for both. *)
Lemma collision_counterexample :
  let w1 := run (impl Rev1) (boot defaults) (twin_calls ++ [Timer 0; Timer 0]) in
  let w2 := run (impl Rev2) (boot defaults) (twin_calls ++ [Timer 0; Timer 0]) in
  (timers w1 = [] ∧ invocations 0 (log w1) = 0%nat ∧ invocations 1 (log w1) = 1%nat) ∧
  (timers w2 = [] ∧ invocations 0 (log w2) = 0%nat ∧ invocations 1 (log w2) = 1%nat) ∧
  ¬ (invocations 0 (log w1) ≠ 1%nat ∧ invocations 1 (log w1) ≠ 1%nat) ∧
  ¬ (invocations 0 (log w2) ≠ 1%nat ∧ invocations 1 (log w2) ≠ 1%nat).
Proof. split_and!; try done; by intros [_ H]. Qed.

(** C10 (amended): two calls issued from a nested window with the same draw
    get the same identifier; registering the second overwrites the entry of
    the first, whose completer is under no key from then on, so that no
    sequence of messages, timers and calls ever invokes it and its caller
    never sees an outcome; the timer armed by the first call rejects the
    second call with the timeout error.  Exactly-once completion fails for
    the first call only: the second is never completed twice, and once that
    timer has fired it stays completed exactly once. *)
Theorem identifier_collision rev w window draw req1 req2 :
  consistent w →
  isEmbeddedInIFrame window = true →
  let id := getUniqueId draw in
  let c1 := length (calls w) in
  let c2 := S c1 in
  let w1 := step (impl rev) w (Call window draw req1) in
  let w2 := step (impl rev) w1 (Call window draw req2) in
  let w3 := step (impl rev) w2 (Timer (length (timers w))) in
  let error := ErrorObj (timeout_message rev id (timeoutMilliseconds (provider w))) in
  completers (provider w1) !! id = Some c1 ∧
  completers (provider w2) !! id = Some c2 ∧
  retired c1 w2 ∧
  (∀ inputs,
     invocations c1 (log (run (impl rev) w2 inputs)) = 0%nat ∧
     outcome (impl rev) (run (impl rev) w2 inputs) c1 = None) ∧
  timers w2 = timers w ++ [(c1, id); (c2, id)] ∧
  log w3 = log w2 ++ [Did (Reject c2 error)] ∧
  (∀ inputs, invocations c2 (log (run (impl rev) w3 inputs)) = 1%nat) ∧
  (∀ inputs, (invocations c2 (log (run (impl rev) w2 inputs)) ≤ 1)%nat).
Proof.
  intros Hw Hwin id c1 c2 w1 w2 w3 error.
  assert (consistent w1) as Hw1 by (by apply consistent_step; [apply _|]).
  assert (consistent w2) as Hw2 by (by apply consistent_step; [apply _|]).
  assert (w1 = {| provider := with_completers <[id := c1]> (provider w);
                  calls := calls w ++ [req1];
                  timers := timers w ++ [(c1, id)];
                  log := log w ++ [Did (PostMessage
                                          (request_payload id (request_method req1)
                                             (request_params req1))
                                          (targetOrigin (provider w)));
                                   Did (SetTimeout id (timeoutMilliseconds (provider w)))] |})
    as Hw1eq.
  { subst w1. simpl. by rewrite issue_run, Hwin. }
  assert (length (calls w1) = c2) as Hlen1.
  { rewrite Hw1eq. simpl. rewrite length_app. simpl. lia. }
  assert (w2 = {| provider := with_completers <[id := c2]> (provider w1);
                  calls := calls w1 ++ [req2];
                  timers := timers w1 ++ [(c2, id)];
                  log := log w1 ++ [Did (PostMessage
                                           (request_payload id (request_method req2)
                                              (request_params req2))
                                           (targetOrigin (provider w1)));
                                    Did (SetTimeout id (timeoutMilliseconds (provider w1)))] |})
    as Hw2eq.
  { subst w2. simpl. by rewrite issue_run, Hwin, Hlen1. }
  assert (completers (provider w2) !! id = Some c2) as Hid2.
  { rewrite Hw2eq. simpl. apply lookup_insert_eq. }
  assert (retired c1 w2) as Hret1.
  { intros key. rewrite Hw2eq, Hw1eq. simpl.
    intros [[_ Heq]|[Hne [[Heq _]|[_ Hkey]]%lookup_insert_Some]]%lookup_insert_Some;
      [subst c2; lia|done|].
    apply (table_bound _ Hw) in Hkey. subst c1. lia. }
  assert (length (calls w2) = S c2) as Hlen2.
  { rewrite Hw2eq. simpl. rewrite length_app, Hlen1. simpl. lia. }
  assert (invocations c1 (log w2) = 0%nat ∧ settlement c1 (log w2) = None) as [Hinv1 Hset1].
  { rewrite Hw2eq, Hw1eq. simpl. rewrite <- app_assoc. split.
    - rewrite invocations_quiet by done. by apply (log_bound _ Hw).
    - unfold c1. by rewrite (settlement_next w _ Hw). }
  split_and!.
  - rewrite Hw1eq. simpl. apply lookup_insert_eq.
  - done.
  - done.
  - intros inputs.
    destruct (retired_forever (impl rev) inputs w2 c1) as (_ & -> & Hset); [lia|done|].
    split; [done|]. unfold outcome. rewrite Hset, Hset1.
    by destruct (calls _ !! c1).
  - rewrite Hw2eq, Hw1eq. simpl. by rewrite <- app_assoc.
  - assert (timers w2 !! length (timers w) = Some (c1, id)) as Hk.
    { rewrite Hw2eq, Hw1eq. simpl. rewrite <- app_assoc. by apply list_lookup_middle. }
    subst w3. simpl. rewrite Hk, timer_run_rev, (slot_own _ _ _ Hid2). simpl.
    rewrite Hw2eq, Hw1eq. done.
  - assert (timers w2 !! length (timers w) = Some (c1, id)) as Hk.
    { rewrite Hw2eq, Hw1eq. simpl. rewrite <- app_assoc. by apply list_lookup_middle. }
    assert (consistent w3) as Hw3 by (by apply consistent_step; [apply _|]).
    assert (log w3 = log w2 ++ [Did (Reject c2 error)] ∧
            completers (provider w3) = delete id (completers (provider w2)) ∧
            calls w3 = calls w2) as (Hlog3 & Htab3 & Hcalls3).
    { subst w3. simpl. rewrite Hk, timer_run_rev, (slot_own _ _ _ Hid2). simpl.
      rewrite Hw2eq, Hw1eq. done. }
    intros inputs.
    destruct (retired_forever (impl rev) inputs w3 c2) as (_ & -> & _).
    + rewrite Hcalls3. lia.
    + intros key. rewrite Htab3. intros [Hne Hkey]%lookup_delete_Some.
      apply Hne. by eapply (table_inj _ Hw2).
    + rewrite Hlog3. unfold invocations.
      rewrite performed_app, invoked_app, filter_app, length_app. simpl.
      rewrite filter_cons, decide_True by done. simpl.
      pose proof (table_fresh _ Hw2 _ _ Hid2) as Hfresh.
      unfold invocations in Hfresh. rewrite Hfresh. done.
  - intros inputs. apply at_most_once. by apply consistent_run; [apply _|].
Qed.

Lemma identifier_collision_witness :
  let w2 := run (impl Rev1) (boot defaults) twin_calls in
  completers (provider w2) !! "7" = Some 1%nat ∧
  retired 0 w2 ∧
  log (step (impl Rev1) w2 (Timer 0)) =
    log w2 ++ [Did (Reject 1 (ErrorObj (V1.timeout_message "7" 60000)))].
Proof.
  destruct (identifier_collision Rev1 (boot defaults) nested 7
              (SendReq "eth_accounts" (JArr [])) (SendReq "net_version" (JArr []))
              (consistent_boot defaults) eq_refl)
    as (_ & H2 & H3 & _ & _ & H6 & _).
  split_and!; [exact H2|exact H3|exact H6].
Defined.

(** ** Every call is accounted for *)

Lemma elem_of_delete_other {A} (l : list A) k x y :
  x ∈ l → l !! k = Some y → x ≠ y → x ∈ delete k l.
Proof.
  revert k. induction l as [|z l IH]; intros k Hx Hk Hne; [by apply elem_of_nil in Hx|].
  destruct k as [|k]; simpl in *.
  - simplify_eq. by apply elem_of_cons in Hx as [?|?].
  - apply elem_of_cons in Hx as [->|Hx]; [apply list_elem_of_here|].
    apply list_elem_of_further. by eapply IH.
Qed.

Lemma retired_after_delete w key c (table : gmap string nat) :
  consistent w → completers (provider w) !! key = Some c →
  table = delete key (completers (provider w)) →
  ∀ k, table !! k ≠ Some c.
Proof.
  intros Hw Hc -> k [Hne Hk]%lookup_delete_Some.
  apply Hne. by eapply table_inj.
Qed.

(** A handler or timer turn that invokes the completer of the entry it
    deletes keeps every call accounted for, provided the timers whose
    identifier is still registered stay armed. *)
Lemma accounted_turn {A} w (r : Result A) this out ts :
  consistent w → accounted w →
  (completers this = completers (provider w) ∧ invoked out = []) ∨
  (∃ k c, completers (provider w) !! k = Some c ∧
          completers this = delete k (completers (provider w)) ∧
          invoked out = [c]) →
  (∀ c id, (c, id) ∈ timers w →
           completers this !! id = Some c → (c, id) ∈ ts) →
  accounted {| provider := this; calls := calls w; timers := ts;
               log := log w ++ (Did <$> out) ++ escaped r |}.
Proof.
  intros Hw Hacc Hshape Hts c Hc. simpl in Hc.
  assert (∀ c', c' ∉ invoked out →
            invocations c' (log w ++ (Did <$> out) ++ escaped r) = invocations c' (log w))
    as Hsame.
  { intros c' Hc'. apply invocations_absent.
    by rewrite performed_app, performed_did, performed_escaped, app_nil_r. }
  assert (failures (log w ++ (Did <$> out) ++ escaped r) = failures (log w)) as Hfail.
  { apply failures_turn, failures_escaped. }
  destruct Hshape as [[Htab Hout]|(k & c' & Hk & Htab & Hinv)].
  - rewrite Hout in Hsame.
    assert (∀ c', c' ∉ @nil nat) as Hnil by (intros c'; apply not_elem_of_nil).
    destruct (Hacc c Hc) as [Hf Hi Hr|id Hid Ht Hi|Hi Hr].
    + apply Refused; simpl; rewrite ?Hfail, ?Hsame, ?Htab; auto.
      intros k. simpl. rewrite Htab. apply Hr.
    + apply (Pending _ _ id); simpl; rewrite ?Hsame, ?Htab; auto.
      apply Hts; [done|by rewrite Htab].
    + apply Completed; simpl; rewrite ?Hsame; auto.
      intros k. simpl. rewrite Htab. apply Hr.
  - rewrite Hinv in Hsame.
    assert (∀ k', this.(completers) !! k' ≠ Some c') as Hgone
      by (by eapply retired_after_delete).
    destruct (decide (c = c')) as [->|Hne].
    + apply Completed; [|done]. simpl.
      rewrite (invocations_turn _ _ _ _ (performed_escaped r)), Hinv, tally_one.
      rewrite decide_True by done. by rewrite (table_fresh _ Hw _ _ Hk).
    + assert (c ∉ [c']) as Hnot by (by intros ?%list_elem_of_singleton).
      destruct (Hacc c Hc) as [Hf Hi Hr|id Hid Ht Hi|Hi Hr].
      * apply Refused; simpl; rewrite ?Hfail, ?Hsame; auto.
        intros k'. simpl. rewrite Htab. intros [_ Hk']%lookup_delete_Some.
        by apply (Hr k').
      * assert (completers this !! id = Some c) as Hid'.
        { rewrite Htab. apply lookup_delete_Some. split; [|done].
          intros ->. congruence. }
        apply (Pending _ _ id); simpl; rewrite ?Hsame; auto.
      * apply Completed; simpl; rewrite ?Hsame; auto.
        intros k'. simpl. rewrite Htab. intros [_ Hk']%lookup_delete_Some.
        by apply (Hr k').
Qed.

Lemma accounted_boot o : accounted (boot o).
Proof. intros c Hc. simpl in Hc. lia. Qed.

Lemma accounted_step I `{!Lawful I} w i :
  consistent w → accounted w →
  overwrites w i = false → drops w i = false →
  accounted (step I w i).
Proof.
  intros Hw Hacc Hover Hdrop. destruct i as [window draw req|data|k]; simpl.
  - rewrite issue_run. simpl in Hover.
    destruct (isEmbeddedInIFrame window); simpl in *.
    + apply bool_decide_eq_false in Hover.
      assert (completers (provider w) !! getUniqueId draw = None) as Hfree.
      { destruct (completers (provider w) !! getUniqueId draw) eqn:E; [|done].
        destruct Hover; eauto. }
      intros c Hc. simpl in Hc. rewrite length_app in Hc. simpl in Hc.
      destruct (decide (c = length (calls w))) as [->|Hne].
      * apply (Pending _ _ (getUniqueId draw)); simpl.
        -- apply lookup_insert_eq.
        -- apply elem_of_app. right. apply list_elem_of_here.
        -- rewrite invocations_quiet by done. by apply (log_bound _ Hw).
      * destruct (Hacc c) as [Hf Hi Hr|id Hid Ht Hi|Hi Hr]; [lia|..].
        -- apply Refused; simpl; rewrite ?invocations_quiet, ?failures_app by done; simpl.
           ++ by rewrite app_nil_r.
           ++ done.
           ++ intros key. simpl. intros [[_ ?]|[_ Hk]]%lookup_insert_Some; [done|].
              by apply (Hr key).
        -- apply (Pending _ _ id); simpl; rewrite ?invocations_quiet by done.
           ++ rewrite lookup_insert_ne; [done|]. intros Heq. congruence.
           ++ apply elem_of_app. by left.
           ++ done.
        -- apply Completed; simpl; rewrite ?invocations_quiet by done; [done|].
           intros key. simpl. intros [[_ ?]|[_ Hk]]%lookup_insert_Some; [done|].
           by apply (Hr key).
    + intros c Hc. simpl in Hc. rewrite length_app in Hc. simpl in Hc.
      destruct (decide (c = length (calls w))) as [->|Hne].
      * apply Refused; simpl; rewrite ?invocations_quiet, ?failures_app by done; simpl.
        -- apply elem_of_app. right. apply list_elem_of_here.
        -- by apply (log_bound _ Hw).
        -- intros key Hk. apply (table_bound _ Hw) in Hk. lia.
      * destruct (Hacc c) as [Hf Hi Hr|id Hid Ht Hi|Hi Hr]; [lia|..].
        -- apply Refused; simpl; rewrite ?invocations_quiet, ?failures_app by done; simpl;
             [|done..]. apply elem_of_app. by left.
        -- by apply (Pending _ _ id); simpl;
             rewrite ?invocations_quiet, ?app_nil_r by done.
        -- by apply Completed; simpl; rewrite ?invocations_quiet by done.
  - pose proof (handler_run data (provider w)) as Hshape.
    destruct (handler I data (provider w)) as [[r this] out].
    apply accounted_turn; [done|done| |done].
    destruct Hshape as (_ & _ & [?|(key & c & Hkey & Hc & Htab & Hout)]); [by left|].
    right. exists key, c. split_and!; [done|done|].
    destruct Hout as [?|(_ & He & Hr)]; [done|].
    simpl in Hdrop. rewrite Hkey, Hc, He, Hr in Hdrop.
    rewrite bool_decide_eq_true_2 in Hdrop by eauto. done.
  - destruct (timers w !! k) as [[c0 id0]|] eqn:Hk; [|done].
    destruct (timer_run id0 (provider w)) as [message Hrun]. rewrite Hrun.
    destruct (slot_cases id0 (completers (provider w))) as [(c & Hc & ->)|[Hc Hslot]].
    + apply accounted_turn; [done|done| |].
      * right. exists id0, c. done.
      * intros c1 id1 Hin Hid1. simpl in Hid1.
        apply lookup_delete_Some in Hid1 as [Hne Hid1].
        eapply elem_of_delete_other; [done|done|]. congruence.
    + assert (∀ c1 id1, (c1, id1) ∈ timers w →
                completers (provider w) !! id1 = Some c1 →
                (c1, id1) ∈ delete k (timers w)) as Hts.
      { intros c1 id1 Hin Hid1.
        eapply elem_of_delete_other; [done|done|]. congruence. }
      destruct Hslot as [-> | ->]; apply accounted_turn; auto.
Qed.

Lemma accounted_run I `{!Lawful I} inputs w :
  consistent w → accounted w → clean I w inputs → accounted (run I w inputs).
Proof.
  revert w. induction inputs as [|i inputs IH]; intros w Hw Hacc Hclean; [done|].
  destruct Hclean as (Hover & Hdrop & Hclean). simpl.
  apply IH; [by apply consistent_step|by apply accounted_step|done].
Qed.

(** ** Exactly-once completion *)




(** ** The two revisions compared *)


(** ** The two revisions compared *)

Lemma new_Error_throws v e : new_Error v = Throw e → e = TypeErrorObj.
Proof.
  unfold new_Error. destruct v; try done;
    destruct (to_string _) eqn:E; cbv [mbind Result_bind result_bind];
    try done; intros [= <-]; by eapply to_string_throws.
Qed.

Lemma error_build_throws data e :
  (x ← get_field data "error"; m ← get_field x "message"; new_Error m) = Throw e →
  e = TypeErrorObj.
Proof.
  cbv [mbind Result_bind result_bind].
  destruct (get_field data "error") as [x|e1] eqn:E1;
    [|intros [= <-]; by eapply get_field_throws].
  destruct (get_field x "message") as [m|e2] eqn:E2;
    [|intros [= <-]; by eapply get_field_throws].
  apply new_Error_throws.
Qed.

(** On a message that addresses no registered identifier the two response
    steps are the same computation. *)
Lemma response_step_miss message this :
  (∀ key c, response_key message = Some key → completers this !! key ≠ Some c) →
  V1.response_step message this = V2.response_step message this.
Proof.
  unfold V1.response_step, V2.response_step, response_key, to_property_key.
  intros Hmiss. turn_unfold.
  destruct (get_field message "id") as [id|e]; [|done].
  destruct (present id); [|done].
  destruct (to_string id) as [key|e]; [|done].
  destruct (slot_cases key (completers this)) as [(c & Hc & _)|[Hc [-> | ->]]];
    [by destruct (Hmiss key c)| |done].
  destruct (has_property "error" message) as [[]|e]; [| |done].
  - destruct (Result_bind _ _ _ _) as [err|e] eqn:E; [done|].
    change (Result_bind JsValue JsError ?k ?r) with (r ≫= k) in E.
    by rewrite (error_build_throws _ _ E).
  - destruct (has_property "result" message) as [[]|e]; [|done|done].
    destruct (get_field message "result") as [result|e] eqn:E; [done|].
    by rewrite (get_field_throws _ _ _ E).
Qed.

Lemma has_property_object fields k :
  has_property k (JObj fields) = Ok (carries k (JObj fields)).
Proof. done. Qed.

Lemma handlers_miss data this :
  (∀ key c, addressed_key data = Some key → completers this !! key ≠ Some c) →
  V1.handleParentWindowMessage data this = V2.handleJsonrpcMessage data this.
Proof.
  intros Hmiss. unfold V1.handleParentWindowMessage, V2.handleJsonrpcMessage.
  unfold addressed_key, envelope in Hmiss.
  turn_unfold.
  destruct (truthy data); [|done]. cbn [negb andb] in *.
  destruct (get_field data "jsonrpc") as [jsonrpc|e]; [|done].
  destruct (strict_eq_str jsonrpc JSON_RPC_VERSION); [|done]. cbn [negb].
  by rewrite response_step_miss.
Qed.

Lemma effect_sim_refl out : invoked out = [] → Forall2 effect_sim out out.
Proof.
  induction out as [|e out IH]; intros Hout; constructor.
  - apply sim_effect. by destruct e.
  - apply IH. by destruct e.
Qed.

Lemma handler_miss_quiet data this r this' out :
  (∀ key c, addressed_key data = Some key → completers this !! key ≠ Some c) →
  V2.handleJsonrpcMessage data this = (r, this', out) → invoked out = [].
Proof.
  intros Hmiss Hrun. pose proof (V2_handler_shape data this) as Hshape.
  rewrite Hrun in Hshape.
  destruct Hshape as (_ & _ & [[_ ?]|(k & c & Hk & Hc & _)]); [done|].
  by destruct (Hmiss k c).
Qed.

(** Unless the message is an error response to a registered identifier, the
    two handlers return or throw alike, leave the same provider and perform
    similar effects. *)
Lemma handlers_agree data this :
  (∀ key c, addressed_key data = Some key → completers this !! key = Some c →
            carries "error" data = false) →
  ∃ r this' out1 out2,
    V1.handleParentWindowMessage data this = (r, this', out1) ∧
    V2.handleJsonrpcMessage data this = (r, this', out2) ∧
    Forall2 effect_sim out1 out2.
Proof.
  intros Hfree.
  destruct (addressed_key data) as [key|] eqn:Hkey;
    [destruct (completers this !! key) as [c|] eqn:Hc|].
  - pose proof (Hfree key c eq_refl Hc) as Herr.
    rewrite (V1_handler_hit _ _ _ _ Hkey Hc), (V2_handler_hit _ _ _ _ Hkey Hc), Herr.
    destruct (stateless_notification_step data) as (r & out & Hout & Hn). rewrite Hn.
    destruct (addressed_key_Some _ _ Hkey) as (fields & id & -> & _).
    simpl. do 4 eexists. split_and!; [done|done|].
    destruct (carries "result" (JObj fields)) eqn:Hres; simpl.
    + constructor; [|by apply effect_sim_refl].
      apply sim_resolve; [by rewrite has_property_object, Herr|done].
    + by apply effect_sim_refl.
  - assert (∀ key' c', addressed_key data = Some key' → completers this !! key' ≠ Some c')
      as Hmiss by (intros key' c' Hk; rewrite Hkey in Hk; congruence).
    rewrite handlers_miss by done.
    destruct (V2.handleJsonrpcMessage data this) as [[r this'] out] eqn:Hrun.
    do 4 eexists. split_and!; [done|done|].
    eapply effect_sim_refl, handler_miss_quiet; done.
  - assert (∀ key' c', addressed_key data = Some key' → completers this !! key' ≠ Some c')
      as Hmiss by (intros key' c' Hk; rewrite Hkey in Hk; congruence).
    rewrite handlers_miss by done.
    destruct (V2.handleJsonrpcMessage data this) as [[r this'] out] eqn:Hrun.
    do 4 eexists. split_and!; [done|done|].
    eapply effect_sim_refl, handler_miss_quiet; done.
Qed.

Lemma entry_sim_did out1 out2 :
  Forall2 effect_sim out1 out2 → Forall2 entry_sim (Did <$> out1) (Did <$> out2).
Proof. induction 1; constructor; [by apply sim_did|done]. Qed.

Lemma entry_sim_escaped {A} (r : Result A) : Forall2 entry_sim (escaped r) (escaped r).
Proof. destruct r; repeat constructor. Qed.

Lemma agree_step w1 w2 i :
  agree w1 w2 → error_response w1 i = false →
  agree (step (impl Rev1) w1 i) (step (impl Rev2) w2 i).
Proof.
  intros [Hp Hc Ht Hl] Hfree. destruct i as [window draw req|data|k]; simpl.
  - rewrite <- Hp, <- Hc.
    pose proof (issue_run (I := impl1) req window draw (length (calls w1)) (provider w1)) as H1.
    pose proof (issue_run (I := impl2) req window draw (length (calls w1)) (provider w1)) as H2.
    simpl in H1, H2. rewrite H1, H2.
    destruct (isEmbeddedInIFrame window); split; simpl; try done; try congruence.
    + apply Forall2_app; [done|]. constructor; [apply sim_did, sim_effect; done|].
      constructor; [apply sim_did, sim_effect; done|]. constructor.
    + apply Forall2_app; [done|]. constructor; [apply sim_failed|constructor].
  - rewrite <- Hp.
    destruct (handlers_agree data (provider w1)) as (r & this' & out1 & out2 & -> & -> & Hout).
    { intros key c Hkey Hk. simpl in Hfree. rewrite Hkey, Hk in Hfree.
      by rewrite bool_decide_eq_true_2 in Hfree by eauto. }
    split; simpl; try done.
    apply Forall2_app; [done|].
    apply Forall2_app; [by apply entry_sim_did|apply entry_sim_escaped].
  - rewrite <- Ht. destruct (timers w1 !! k) as [[c id]|]; [|by split].
    rewrite <- Hp, V1_timeout_run, V2_timeout_run.
    destruct (slot id (completers (provider w1))); split; simpl; try done;
      try congruence; apply Forall2_app; try done; repeat constructor.
Qed.

Lemma agree_run inputs w1 w2 :
  agree w1 w2 → error_free (impl Rev1) w1 inputs →
  agree (run (impl Rev1) w1 inputs) (run (impl Rev2) w2 inputs).
Proof.
  revert w1 w2. induction inputs as [|i inputs IH]; intros w1 w2 Hag Hfree; [done|].
  destruct Hfree as [Hi Hfree]. simpl. apply IH; [by apply agree_step|done].
Qed.

Lemma agree_boot o : agree (boot o) (boot o).
Proof. by split. Qed.

Lemma entry_sim_observed {B} (f : Effect → option B) l1 l2 :
  (∀ c v, f (Resolve c v) = None) → (∀ c e, f (Reject c e) = None) →
  Forall2 entry_sim l1 l2 →
  omap f (performed l1) = omap f (performed l2).
Proof.
  intros Hres Hrej. induction 1 as [|x1 x2 l1 l2 Hx _ IH]; [done|].
  destruct Hx as [e1 e2 He|c e|e]; simpl; [|done..].
  destruct He; simpl; rewrite ?Hres, ?Hrej; try apply IH.
  destruct (f e); [f_equal|]; apply IH.
Qed.

Lemma entry_sim_uncaught l1 l2 :
  Forall2 entry_sim l1 l2 →
  omap (λ x, match x with Uncaught e => Some e | _ => None end) l1 =
  omap (λ x, match x with Uncaught e => Some e | _ => None end) l2.
Proof.
  induction 1 as [|x1 x2 l1 l2 Hx _ IH]; [done|].
  destruct Hx; simpl; try apply IH. f_equal. apply IH.
Qed.

Lemma settlement_sim c l1 l2 :
  Forall2 entry_sim l1 l2 →
  outcome_sim ((λ s, settle (V1.send_resume s)) <$> settlement c l1)
              (settle <$> settlement c l2).
Proof.
  unfold settlement. induction 1 as [|x1 x2 l1 l2 Hx _ IH]; [constructor|].
  destruct Hx as [e1 e2 He|c' e|e]; simpl; [| |done].
  - destruct He as [c' message result Herr Hres|c' id ms|e He]; simpl.
    + case_decide; [|done]. simpl. unfold V1.send_resume. simpl.
      rewrite Herr. simpl. rewrite Hres. constructor.
    + case_decide; [|done]. simpl. constructor.
    + by destruct e.
  - case_decide; [|done]. simpl. constructor.
Qed.

(** C9 (counterexample): the two revisions are told apart at the public
    interface by an error response (an [RpcError] with code and reason
    against a plain [Error]), by the result handed to the callback of
    [sendAsync] (the response message against the payload extended with the
    result), and by the text of the timeout error. *)
Lemma revisions_differ :
  (let inputs := one_call ++ [Message unauthorized_7] in
   outcome (impl Rev1) (run (impl Rev1) (boot defaults) inputs) 0 ≠
   outcome (impl Rev2) (run (impl Rev2) (boot defaults) inputs) 0) ∧
  (outcome (impl Rev1) (run (impl Rev1) (boot defaults) async_call) 0 ≠
   outcome (impl Rev2) (run (impl Rev2) (boot defaults) async_call) 0) ∧
  (let inputs := one_call ++ [Timer 0] in
   outcome (impl Rev1) (run (impl Rev1) (boot defaults) inputs) 0 ≠
   outcome (impl Rev2) (run (impl Rev2) (boot defaults) inputs) 0).
Proof. split_and!; vm_compute; intros H; discriminate H. Qed.

(** C9 (amended): over every sequence of calls, messages and timer expiries
    in which no message carrying [error] addresses a registered identifier,
    the two revisions keep the same provider (pending-call table included)
    and the same armed timers, post the same envelopes, emit the same events
    and let the same exceptions escape; every [send] call is then unsettled
    in both, fulfilled with the same value in both, or rejected in both, with
    the same error or with each revision's timeout error. *)
Theorem revisions_agree o inputs :
  error_free (impl Rev1) (boot o) inputs →
  let w1 := run (impl Rev1) (boot o) inputs in
  let w2 := run (impl Rev2) (boot o) inputs in
  provider w1 = provider w2 ∧
  timers w1 = timers w2 ∧
  posted w1 = posted w2 ∧
  emitted w1 = emitted w2 ∧
  uncaught w1 = uncaught w2 ∧
  ∀ c method params,
    calls w1 !! c = Some (SendReq method params) →
    outcome_sim (outcome (impl Rev1) w1 c) (outcome (impl Rev2) w2 c).
Proof.
  intros Hfree w1 w2.
  destruct (agree_run inputs (boot o) (boot o) (agree_boot o) Hfree) as [Hp Hc Ht Hl].
  fold w1 w2 in Hp, Hc, Ht, Hl. split_and!; [done|done| | | |].
  - by apply entry_sim_observed.
  - by apply entry_sim_observed.
  - by apply entry_sim_uncaught.
  - intros c method params Hreq. unfold outcome. rewrite <- Hc, Hreq. simpl.
    pose proof (settlement_sim c _ _ Hl) as Hsim.
    destruct (settlement c (log w1)), (settlement c (log w2)); exact Hsim.
Qed.

Lemma revisions_agree_witness :
  let inputs := one_call ++ [Message result_and_accounts_7; Timer 0] in
  let w1 := run (impl Rev1) (boot defaults) inputs in
  let w2 := run (impl Rev2) (boot defaults) inputs in
  provider w1 = provider w2 ∧ posted w1 = posted w2 ∧ emitted w1 = emitted w2.
Proof.
  intros inputs w1 w2.
  destruct (revisions_agree defaults inputs) as (Hp & _ & Hposted & Hemitted & _).
  - simpl. repeat split; vm_compute; reflexivity.
  - split_and!; [exact Hp|exact Hposted|exact Hemitted].
Defined.

(** * Further properties of the two revisions *)

(** ** Successful responses *)

Lemma carries_false_object fields k :
  carries k (JObj fields) = false → has_property k (JObj fields) = Ok false.
Proof. unfold carries. simpl. by intros ->. Qed.

Lemma result_response_outcome rev w c key method params data result :
  consistent w →
  calls w !! c = Some (SendReq method params) →
  addressed_key data = Some key →
  completers (provider w) !! key = Some c →
  carries "error" data = false →
  carries "result" data = true →
  get_field data "result" = Ok result →
  let w' := step (impl rev) w (Message data) in
  outcome (impl rev) w' c = Some (Fulfilled result) ∧
  completers (provider w') = delete key (completers (provider w)) ∧
  invocations c (log w') = 1%nat.
Proof.
  intros Hw Hreq Hkey Hc Herr Hres Hresult w'. subst w'.
  destruct (stateless_notification_step data) as (r & out & Hout & Hn).
  destruct (addressed_key_Some _ _ Hkey) as (fields & id & -> & _).
  assert (∃ completion,
            handler (impl rev) (JObj fields) (provider w) =
              (r, with_completers (delete key) (provider w), completion :: out) ∧
            settlement c ((Did <$> (completion :: out)) ++ escaped r)
              = Some (Ok (match rev with Rev1 => JObj fields | Rev2 => result end)) ∧
            invoked [completion] = [c]) as (completion & Hrun & Hset & Hinv).
  { destruct rev; simpl.
    - rewrite (V1_handler_hit _ _ _ _ Hkey Hc), Hn, Herr, Hres. simpl.
      eexists. split_and!; [done| |done].
      unfold settlement. simpl. by rewrite decide_True.
    - rewrite (V2_handler_hit _ _ _ _ Hkey Hc), Hn, Herr, Hres. simpl.
      eexists. split_and!; [done| |done].
      unfold settlement. simpl. rewrite decide_True by done. simpl.
      simpl in Hresult. congruence. }
  split_and!.
  - rewrite (outcome_message rev w _ c key _ r _ _ Hw Hc Hreq Hrun), Hset. simpl.
    destruct rev; simpl; [|done].
    unfold V1.send_resume. simpl in *.
    apply carries_false_object in Herr. simpl in Herr.
    injection Herr as ->. simpl. by injection Hresult as ->.
  - simpl. by rewrite Hrun.
  - assert (log (step (impl rev) w (Message (JObj fields)))
            = log w ++ (Did <$> (completion :: out)) ++ escaped r) as ->
      by (simpl; by rewrite Hrun).
    rewrite (invocations_turn _ _ _ _ (performed_escaped r)).
    rewrite (table_fresh _ Hw _ _ Hc).
    change (completion :: out) with ([completion] ++ out).
    rewrite invoked_app, Hinv, Hout. simpl. rewrite tally_one. by rewrite decide_True.
Qed.

(** X1: when a message addresses the pending entry of a [send] call and
    carries [result] but no [error], the call is fulfilled with
    [message.result] in both revisions, its completer is invoked once and its
    entry is deleted in the same turn. *)
Theorem result_response_fulfils rev w c key method params data result :
  consistent w →
  calls w !! c = Some (SendReq method params) →
  addressed_key data = Some key →
  completers (provider w) !! key = Some c →
  carries "error" data = false →
  carries "result" data = true →
  get_field data "result" = Ok result →
  let w' := step (impl rev) w (Message data) in
  outcome (impl rev) w' c = Some (Fulfilled result) ∧
  completers (provider w') = delete key (completers (provider w)) ∧
  invocations c (log w') = 1%nat.
Proof. apply result_response_outcome. Qed.

Lemma result_response_fulfils_witness :
  outcome (impl Rev2)
    (step (impl Rev2) (run (impl Rev2) (boot defaults) one_call) (Message result_7)) 0
  = Some (Fulfilled (JArr [JStr "0xabc"])).
Proof.
  apply (result_response_fulfils Rev2 (run (impl Rev2) (boot defaults) one_call) 0 "7"
           "eth_accounts" (JArr []) result_7 (JArr [JStr "0xabc"])).
  - apply consistent_run, consistent_boot; apply _.
  - reflexivity.
  - reflexivity.
  - vm_compute. reflexivity.
  - reflexivity.
  - reflexivity.
  - reflexivity.
Defined.

(** ** The legacy callback interface *)

(** X2: what [sendAsync] hands to its callback when a message addresses the
    pending entry of its call.  The first revision passes the whole response
    message as the result with a [null] error, for an error response as well
    as for a result; the second passes the payload extended with [result],
    or, for an error response whose [error] is an error object, a plain
    [Error] and a [null] result. *)
Theorem sendAsync_callback w c key payload data :
  consistent w →
  calls w !! c = Some (SendAsyncReq payload) →
  addressed_key data = Some key →
  completers (provider w) !! key = Some c →
  carries "error" data || carries "result" data = true →
  outcome (impl Rev1) (step (impl Rev1) w (Message data)) c
    = Some (CalledBack None data) ∧
  (carries "error" data = false →
   ∀ result, get_field data "result" = Ok result →
     outcome (impl Rev2) (step (impl Rev2) w (Message data)) c
       = Some (CalledBack None (JObj (payload_fields payload ++ [("result", result)])))) ∧
  (carries "error" data = true → conforming_error data = true →
   ∃ text,
     outcome (impl Rev2) (step (impl Rev2) w (Message data)) c
       = Some (CalledBack (Some (ErrorObj text)) JNull)).
Proof.
  intros Hw Hreq Hkey Hc Hresp.
  destruct (stateless_notification_step data) as (r & out & Hout & Hn).
  split_and!.
  - erewrite (outcome_message Rev1) by
      (try done; simpl; by rewrite (V1_handler_hit _ _ _ _ Hkey Hc), Hn, Hresp).
    unfold settlement. simpl. by rewrite decide_True.
  - intros Herr result Hresult. rewrite Herr in Hresp. simpl in Hresp.
    destruct (addressed_key_Some _ _ Hkey) as (fields & id & -> & _).
    erewrite (outcome_message Rev2) by
      (try done; simpl; by rewrite (V2_handler_hit _ _ _ _ Hkey Hc), Hn, Herr, Hresp).
    unfold settlement. simpl. rewrite decide_True by done. simpl.
    simpl in Hresult. by injection Hresult as ->.
  - intros Herr Hconf.
    destruct (conforming_error_builds data Hconf) as [text Hbuild].
    exists text.
    erewrite (outcome_message Rev2) by
      (try done; simpl;
       by rewrite (V2_handler_hit _ _ _ _ Hkey Hc), Hn, Herr, Hbuild).
    unfold settlement. simpl. by rewrite decide_True.
Qed.

Lemma sendAsync_callback_witness :
  outcome (impl Rev1) (run (impl Rev1) (boot defaults) async_call) 0
    = Some (CalledBack None result_7).
Proof.
  apply (sendAsync_callback
           (run (impl Rev1) (boot defaults)
              [Call nested 7 (SendAsyncReq {| payload_method := "eth_accounts";
                                              payload_params := None |})])
           0 "7" {| payload_method := "eth_accounts"; payload_params := None |} result_7).
  - apply consistent_run, consistent_boot; apply _.
  - reflexivity.
  - reflexivity.
  - vm_compute. reflexivity.
  - reflexivity.
Defined.

(** ** A completed call stays completed *)

(** X3: once one of the two callbacks of a call has been invoked, no later
    sequence of calls, messages (duplicates of the response included) and
    timer expiries invokes a callback of that call again, brings its entry
    back, or changes what its caller observed. *)
Theorem completion_is_final rev w c inputs :
  consistent w →
  invocations c (log w) = 1%nat →
  let w' := run (impl rev) w inputs in
  invocations c (log w') = 1%nat ∧
  retired c w' ∧
  outcome (impl rev) w' c = outcome (impl rev) w c.
Proof.
  intros Hw Hone w'. subst w'.
  assert (c < length (calls w))%nat as Hc.
  { destruct (decide (c < length (calls w))%nat); [done|].
    rewrite (log_bound _ Hw c) in Hone by lia. done. }
  assert (retired c w) as Hret.
  { intros key Hkey. apply (table_fresh _ Hw) in Hkey. lia. }
  destruct (retired_forever (impl rev) inputs w c Hc Hret) as (Hret' & -> & Hset).
  split_and!; [done|done|].
  unfold outcome. rewrite Hset.
  destruct (lookup_lt_is_Some_2 (calls w) c Hc) as [req Hreq].
  by rewrite (calls_run _ inputs _ _ _ Hreq), Hreq.
Qed.

Lemma completion_is_final_witness :
  let w := run (impl Rev1) (boot defaults) (one_call ++ [Message result_7]) in
  outcome (impl Rev1) (run (impl Rev1) w [Message result_7; Message unauthorized_7; Timer 0]) 0
    = outcome (impl Rev1) w 0.
Proof.
  intros w.
  apply (completion_is_final Rev1 w 0 [Message result_7; Message unauthorized_7; Timer 0]).
  - apply consistent_run, consistent_boot; apply _.
  - vm_compute. reflexivity.
Defined.

(** ** Identifiers on the way back *)

Lemma pretty_Z_of_N (n : N) : pretty (Z.of_N n) = pretty n.
Proof. by destruct n. Qed.

(** X4: the lookup converts the inbound identifier to a string, so a response
    that echoes the identifier as a number, not as the string that was sent,
    still finds the call: a call issued with draw [draw] is fulfilled by a
    result message whose [id] is that number. *)
Theorem numeric_id_matches rev w window draw method params fields result :
  consistent w →
  isEmbeddedInIFrame window = true →
  envelope (JObj fields) = true →
  assoc "id" fields = Some (JNum (Z.of_N draw)) →
  assoc "error" fields = None →
  assoc "result" fields = Some result →
  let c := length (calls w) in
  let w1 := step (impl rev) w (Call window draw (SendReq method params)) in
  let w2 := step (impl rev) w1 (Message (JObj fields)) in
  addressed_key (JObj fields) = Some (getUniqueId draw) ∧
  outcome (impl rev) w2 c = Some (Fulfilled result).
Proof.
  intros Hw Hwin He Hid Herr Hres c w1 w2.
  assert (addressed_key (JObj fields) = Some (getUniqueId draw)) as Hkey.
  { unfold addressed_key, response_key. rewrite He. simpl. rewrite Hid. simpl.
    unfold number_to_string. by rewrite pretty_Z_of_N. }
  split; [done|].
  assert (consistent w1) as Hw1 by (by apply consistent_step; [apply _|]).
  assert (calls w1 !! c = Some (SendReq method params) ∧
          completers (provider w1) !! getUniqueId draw = Some c) as [Hreq Hc].
  { subst w1. simpl. rewrite issue_run, Hwin. simpl. split.
    - by apply list_lookup_middle.
    - apply lookup_insert_eq. }
  apply (result_response_outcome rev w1 c (getUniqueId draw) method params
           (JObj fields) result); try done.
  - unfold carries. simpl. rewrite Herr. by rewrite bool_decide_eq_false_2 by (by intros [? ?]).
  - unfold carries. simpl. rewrite Hres. by rewrite bool_decide_eq_true_2 by eauto.
  - simpl. by rewrite Hres.
Qed.

Lemma numeric_id_matches_witness :
  outcome (impl Rev1)
    (run (impl Rev1) (boot defaults)
       [ Call nested 42 (SendReq "net_version" (JArr []));
         Message (JObj [("jsonrpc", JStr "2.0"); ("id", JNum 42); ("result", JStr "1")]) ])
    0 = Some (Fulfilled (JStr "1")).
Proof.
  apply (numeric_id_matches Rev1 (boot defaults) nested 42 "net_version" (JArr [])
           [("jsonrpc", JStr "2.0"); ("id", JNum 42); ("result", JStr "1")] (JStr "1")).
  - apply consistent_boot.
  - reflexivity.
  - reflexivity.
  - reflexivity.
  - reflexivity.
  - reflexivity.
Defined.

(** X5: the pending-call table is a plain object, so an inbound identifier
    that spells a property of [Object.prototype] finds a built-in instead of
    a completer: when such a message carries [result] or [error], both
    handlers throw a [TypeError] before touching the table or dispatching a
    notification.  Identifiers made by [getUniqueId] never spell such a
    name. *)
Theorem inherited_key_throws rev this data key :
  addressed_key data = Some key →
  key ∈ object_prototype_keys →
  completers this !! key = None →
  carries "error" data || carries "result" data = true →
  handler (impl rev) data this = (Throw TypeErrorObj, this, []) ∧
  ∀ draw, getUniqueId draw ≠ key.
Proof.
  intros (fields & id & -> & He & Hid & Hp & Hkey)%addressed_key_Some Hin Hnone Hresp.
  split; [|intros draw <-; by apply (getUniqueId_own draw)].
  destruct (envelope_guards _ He) as (Ht & jsonrpc & Hj & Hv).
  assert (slot key (completers this) = Inherited) as Hslot.
  { unfold slot. rewrite Hnone. by rewrite bool_decide_eq_true_2. }
  unfold carries in Hresp. simpl in Hid, Hj, Hresp. simplify_eq.
  destruct rev; simpl;
    [unfold V1.handleParentWindowMessage, V1.response_step
    |unfold V2.handleJsonrpcMessage, V2.response_step];
    turn_unfold; simpl; rewrite Hv, Hp; simpl; rewrite Hkey; simpl;
    rewrite !Hslot; simpl.
  - case_bool_decide; simpl; [done|]. simpl in Hresp. by rewrite Hresp.
  - case_bool_decide; simpl.
    + destruct (Result_bind _ _ _ _) as [err|e] eqn:E; simpl; [done|].
      change (Result_bind JsValue JsError ?k ?r) with (r ≫= k) in E.
      assert (e = TypeErrorObj) as ->; [|done].
      apply (error_build_throws (JObj fields)). exact E.
    + simpl in Hresp. by rewrite Hresp.
Qed.

Lemma inherited_key_throws_witness :
  handler (impl Rev1)
    (JObj [("jsonrpc", JStr "2.0"); ("id", JStr "toString"); ("result", JNum 1)])
    (provider (run (impl Rev1) (boot defaults) one_call))
  = (Throw TypeErrorObj, provider (run (impl Rev1) (boot defaults) one_call), []).
Proof.
  apply (inherited_key_throws Rev1 (provider (run (impl Rev1) (boot defaults) one_call))
           (JObj [("jsonrpc", JStr "2.0"); ("id", JStr "toString"); ("result", JNum 1)])
           "toString").
  - reflexivity.
  - unfold object_prototype_keys. repeat constructor.
  - vm_compute. reflexivity.
  - reflexivity.
Defined.

(** ** Traffic that is not for the provider *)

(** X6: a message whose data is falsy, or whose [jsonrpc] member is not the
    string ["2.0"], is ignored by both handlers: nothing is returned or
    thrown, no completer is invoked, nothing is emitted, and the world after
    the turn is the world before it. *)
Theorem foreign_message_ignored rev w data :
  envelope data = false →
  handler (impl rev) data (provider w) = (Ok tt, provider w, []) ∧
  step (impl rev) w (Message data) = w.
Proof.
  intros He.
  assert (handler (impl rev) data (provider w) = (Ok tt, provider w, [])) as Hrun.
  { unfold envelope in He.
    destruct rev; simpl;
      [unfold V1.handleParentWindowMessage|unfold V2.handleJsonrpcMessage];
      turn_unfold; (destruct (truthy data) eqn:Ht; simpl in *; [|done]);
      (destruct (get_field data "jsonrpc") as [jsonrpc|e] eqn:Hj;
       [by rewrite He|by destruct data]). }
  split; [done|]. simpl. rewrite Hrun. simpl. rewrite app_nil_r. by destruct w.
Qed.

Lemma foreign_message_ignored_witness :
  step (impl Rev2) (run (impl Rev2) (boot defaults) one_call)
    (Message (JObj [("jsonrpc", JStr "1.0"); ("id", JStr "7"); ("result", JNum 1)]))
  = run (impl Rev2) (boot defaults) one_call.
Proof.
  apply (foreign_message_ignored Rev2 (run (impl Rev2) (boot defaults) one_call)
           (JObj [("jsonrpc", JStr "1.0"); ("id", JStr "7"); ("result", JNum 1)])).
  reflexivity.
Defined.

Lemma strict_eq_str_true v s : strict_eq_str v s = true → v = JStr s.
Proof.
  destruct v; simpl; try done. intros H%String.eqb_eq. by subst.
Qed.



(** ** What handlers and timers never do *)

Lemma outbound_app out1 out2 : outbound (out1 ++ out2) = outbound out1 ++ outbound out2.
Proof. apply omap_app. Qed.

Lemma tame_ret {A} (a : A) : tame (mret a).
Proof. by intros this. Qed.

Lemma tame_throw {A} e : tame (@throw A e).
Proof. by intros this. Qed.

Lemma tame_lift {A} (r : Result A) : tame (lift r).
Proof. by intros this. Qed.

Lemma tame_read {A} (f : IFrameEthereumProvider → A) : tame (read f).
Proof. by intros this. Qed.

Lemma tame_modify f : tame (modify f).
Proof. by intros this. Qed.

Lemma tame_tell e : outbound [e] = [] → tame (tell e).
Proof. by intros He this. Qed.

Lemma tame_bind {A B} (m : M A) (k : A → M B) :
  tame m → (∀ a, tame (k a)) → tame (m ≫= k).
Proof.
  intros Hm Hk this. specialize (Hm this). unfold mbind, M_bind, bind.
  destruct (m this) as [[[a|e] this1] out1]; simpl in *; [|done].
  specialize (Hk a this1). destruct (k a this1) as [[r this2] out2]. simpl in *.
  by rewrite outbound_app, Hm, Hk.
Qed.

Ltac tame_step :=
  first
    [ apply tame_bind; [|intros ?]
    | apply tame_lift | apply tame_read | apply tame_modify
    | apply tame_throw | apply (tame_ret tt) | apply tame_ret
    | apply tame_tell; reflexivity ].

Lemma tame_notification_step message : tame (notification_step message).
Proof.
  unfold notification_step, dispatch_method, params_at, emitNotification, emitConnect,
    emitClose, emitChainChanged, emitNetworkChanged, emitAccountsChanged.
  repeat first [tame_step | case_match].
Qed.

Lemma tame_handler rev data : tame (handler (impl rev) data).
Proof.
  destruct rev; simpl;
    [unfold V1.handleParentWindowMessage, V1.response_step, V1.resolve, completer_at
    |unfold V2.handleJsonrpcMessage, V2.response_step, V2.resolve, V2.reject,
       completer_at];
    repeat first [apply tame_notification_step | tame_step | case_match].
Qed.

Lemma tame_timer rev id : tame (timer (impl rev) id).
Proof.
  destruct rev; simpl;
    [unfold V1.timeout_callback|unfold V2.timeout_callback]; unfold completer_at;
    repeat first [tame_step | case_match].
Qed.

Lemma outbound_none {B} (f : Effect → option B) out :
  outbound out = [] → (∀ e, outbound [e] = [] → f e = None) → omap f out = [].
Proof.
  intros Hout Hf. induction out as [|e out IH]; [done|].
  assert (outbound [e] = [] ∧ outbound out = []) as [He Hrest].
  { change (e :: out) with ([e] ++ out) in Hout. rewrite outbound_app in Hout.
    by apply app_eq_nil in Hout. }
  simpl. rewrite (Hf e He). by apply IH.
Qed.

(** What one turn adds to the outbound traffic, and that it leaves the
    configuration alone. *)
Lemma step_outbound rev w i :
  let w' := step (impl rev) w i in
  let sent := option_list (envelope_sent i) in
  targetOrigin (provider w') = targetOrigin (provider w) ∧
  timeoutMilliseconds (provider w') = timeoutMilliseconds (provider w) ∧
  posted w' = posted w ++ sent ∧
  origins w' = origins w ++ replicate (length sent) (targetOrigin (provider w)) ∧
  delays w' = delays w ++ replicate (length sent) (timeoutMilliseconds (provider w)).
Proof.
  assert (∀ {A} (r : Result A) this out,
    outbound out = [] →
    targetOrigin this = targetOrigin (provider w) →
    timeoutMilliseconds this = timeoutMilliseconds (provider w) →
    ∀ ts,
    let w' := {| provider := this; calls := calls w; timers := ts;
                 log := log w ++ (Did <$> out) ++ escaped r |} in
    targetOrigin (provider w') = targetOrigin (provider w) ∧
    timeoutMilliseconds (provider w') = timeoutMilliseconds (provider w) ∧
    posted w' = posted w ++ [] ∧
    origins w' = origins w ++ [] ∧
    delays w' = delays w ++ []) as Hturn.
  { intros A r this out Hout Ho Hms ts. unfold posted, origins, delays. simpl.
    rewrite !performed_app, performed_did, performed_escaped, app_nil_r, !omap_app.
    rewrite !(outbound_none _ out Hout); [done|..]; by intros []. }
  destruct i as [window draw req|data|k]; simpl.
  - rewrite issue_run. destruct (isEmbeddedInIFrame window); simpl.
    + unfold posted, origins, delays. simpl.
      by rewrite !performed_app, !omap_app.
    + unfold posted, origins, delays. simpl.
      by rewrite !performed_app, !omap_app.
  - pose proof (tame_handler rev data (provider w)) as Htame.
    pose proof (handler_run (I := impl rev) data (provider w)) as Hshape.
    destruct (handler (impl rev) data (provider w)) as [[r this] out].
    destruct Hshape as (Ho & Hms & _). by apply Hturn.
  - destruct (timers w !! k) as [[c id]|]; [|by rewrite !app_nil_r].
    pose proof (tame_timer rev id (provider w)) as Htame.
    pose proof (timer_shape (impl rev) id JNull (provider w)) as Hshape.
    destruct (timer (impl rev) id (provider w)) as [[r this] out].
    destruct Hshape as (Ho & Hms & _). by apply Hturn.
Qed.

Lemma run_outbound rev inputs w :
  let w' := run (impl rev) w inputs in
  let sent := omap envelope_sent inputs in
  targetOrigin (provider w') = targetOrigin (provider w) ∧
  timeoutMilliseconds (provider w') = timeoutMilliseconds (provider w) ∧
  posted w' = posted w ++ sent ∧
  origins w' = origins w ++ replicate (length sent) (targetOrigin (provider w)) ∧
  delays w' = delays w ++ replicate (length sent) (timeoutMilliseconds (provider w)).
Proof.
  revert w. induction inputs as [|i inputs IH]; intros w; simpl.
  { by rewrite !app_nil_r. }
  destruct (step_outbound rev w i) as (Ho & Hms & Hp & Hor & Hd).
  destruct (IH (step (impl rev) w i)) as (Ho' & Hms' & Hp' & Hor' & Hd').
  rewrite Ho', Hms', Hp', Hor', Hd', Ho, Hms, Hp, Hor, Hd.
  destruct (envelope_sent i); simpl; rewrite <- ?app_assoc; simpl; done.
Qed.

(** X8: in every run of either revision, the envelopes handed to
    [postMessage] are exactly the request envelopes of the calls issued from
    a nested window, one per call and in the order of the calls: handlers
    and timers never post, a call outside an iframe posts nothing, and
    nothing is ever sent twice. *)
Theorem outbound_traffic rev o inputs :
  posted (run (impl rev) (boot o) inputs) = omap envelope_sent inputs.
Proof. by destruct (run_outbound rev inputs (boot o)) as (_ & _ & -> & _). Qed.


(** ** No entry outlives its timer *)

Lemma guarded_step I `{!Lawful I} w i : guarded w → guarded (step I w i).
Proof.
  intros Hg. destruct i as [window draw req|data|k]; simpl.
  - rewrite issue_run. destruct (isEmbeddedInIFrame window); simpl.
    + intros id c. simpl. intros [[<- <-]|[_ Hid]]%lookup_insert_Some.
      * apply elem_of_app. right. apply list_elem_of_here.
      * apply elem_of_app. left. by apply Hg.
    + intros id c Hid. simpl in *. rewrite app_nil_r. by apply Hg.
  - pose proof (handler_run data (provider w)) as Hshape.
    destruct (handler I data (provider w)) as [[r this] out].
    destruct Hshape as (_ & _ & [[Htab _]|(key & c' & _ & _ & Htab & _)]);
      intros id c; simpl; rewrite Htab.
    + apply Hg.
    + intros [_ Hid]%lookup_delete_Some. by apply Hg.
  - destruct (timers w !! k) as [[c0 id0]|] eqn:Hk; [|done].
    destruct (timer_run id0 (provider w)) as [message Hrun]. rewrite Hrun.
    destruct (slot_cases id0 (completers (provider w))) as [(c' & Hc' & ->)|[Hc' Hslot]].
    + intros id c. simpl. intros [Hne Hid]%lookup_delete_Some.
      eapply elem_of_delete_other; [by apply Hg|done|congruence].
    + assert (∀ id c, completers (provider w) !! id = Some c →
                (c, id) ∈ delete k (timers w)) as Hkeep.
      { intros id c Hid.
        eapply elem_of_delete_other; [by apply Hg|done|congruence]. }
      destruct Hslot as [-> | ->]; intros id c Hid; by apply Hkeep.
Qed.

Lemma guarded_boot o : guarded (boot o).
Proof. intros id c. simpl. by rewrite lookup_empty. Qed.

Lemma guarded_run I `{!Lawful I} inputs w : guarded w → guarded (run I w inputs).
Proof.
  revert w. induction inputs as [|i inputs IH]; intros w Hg; [done|].
  simpl. by apply IH, guarded_step.
Qed.


(** ** A message touches the entry it addresses, and nothing else *)

(** X11: whatever the message, a handler turn of either revision never adds
    an entry to the pending-call table, never changes the configuration, and
    leaves every entry alone except the one under the identifier the message
    addresses. *)
Theorem message_touches_only_its_entry rev data this :
  let this' := (handler (impl rev) data this).1.2 in
  targetOrigin this' = targetOrigin this ∧
  timeoutMilliseconds this' = timeoutMilliseconds this ∧
  (∀ k, completers this !! k = None → completers this' !! k = None) ∧
  (∀ k, addressed_key data ≠ Some k → completers this' !! k = completers this !! k).
Proof.
  pose proof (handler_run (I := impl rev) data this) as Hshape.
  destruct (handler (impl rev) data this) as [[r this'] out]. simpl.
  destruct Hshape as (Ho & Hms & [[Htab _]|(key & c & Hkey & _ & Htab & _)]);
    split_and!; try done; intros k; rewrite Htab; try done.
  - intros Hk. rewrite lookup_delete_None. by right.
  - intros Hne. apply lookup_delete_ne. congruence.
Qed.

(** ** Error responses in the first revision *)



(** ** An [error] member that is [null] or [undefined] *)

(** X13: when a message that addresses the pending entry of a [send] call
    carries an [error] member whose value is [null] or [undefined], the
    first revision still completes the call: its entry is deleted and the
    caller sees a rejection by the [TypeError] raised while reading
    [response.error.code].  The second revision throws that [TypeError] out
    of the handler before it invokes a callback or deletes the entry: the
    provider is unchanged, the call is still pending, and only its timer can
    complete it. *)
Theorem null_error_member w c key method params data e :
  consistent w →
  calls w !! c = Some (SendReq method params) →
  addressed_key data = Some key →
  completers (provider w) !! key = Some c →
  carries "error" data = true →
  get_field data "error" = Ok e →
  present e = false →
  let w1 := step (impl Rev1) w (Message data) in
  let w2 := step (impl Rev2) w (Message data) in
  (outcome (impl Rev1) w1 c = Some (Rejected TypeErrorObj) ∧
   completers (provider w1) !! key = None) ∧
  (provider w2 = provider w ∧
   log w2 = log w ++ [Uncaught TypeErrorObj] ∧
   outcome (impl Rev2) w2 c = None).
Proof.
  intros Hw Hreq Hkey Hc Hcarries Herror Hnull w1 w2. subst w1 w2.
  destruct (stateless_notification_step data) as (r & out & Hout & Hn).
  assert ((x ← get_field data "error"; m ← get_field x "message"; new_Error m)
          = Throw TypeErrorObj) as Hbuild.
  { rewrite Herror. by destruct e. }
  assert (handler (impl Rev2) data (provider w) = (Throw TypeErrorObj, provider w, []))
    as Hrun2.
  { simpl. by rewrite (V2_handler_hit _ _ _ _ Hkey Hc), Hn, Hcarries, Hbuild. }
  split; split_and!.
  - erewrite (outcome_message Rev1) by
      (try done; simpl; by rewrite (V1_handler_hit _ _ _ _ Hkey Hc), Hn, Hcarries).
    unfold settlement. simpl. rewrite decide_True by done. simpl.
    unfold V1.send_resume. simpl.
    rewrite (carries_true _ _ Hcarries). simpl. rewrite Herror. simpl.
    by destruct e.
  - simpl. rewrite (V1_handler_hit _ _ _ _ Hkey Hc), Hn. simpl.
    apply lookup_delete_eq.
  - simpl. simpl in Hrun2. by rewrite Hrun2.
  - simpl. simpl in Hrun2. by rewrite Hrun2.
  - by rewrite (outcome_message Rev2 w _ c key _ _ _ _ Hw Hc Hreq Hrun2).
Qed.

Lemma null_error_member_witness :
  let w := run (impl Rev2) (boot defaults) one_call in
  let data := JObj [("jsonrpc", JStr "2.0"); ("id", JStr "7"); ("error", JNull)] in
  provider (step (impl Rev2) w (Message data)) = provider w ∧
  log (step (impl Rev2) w (Message data)) = log w ++ [Uncaught TypeErrorObj] ∧
  outcome (impl Rev2) (step (impl Rev2) w (Message data)) 0 = None.
Proof.
  intros w data.
  destruct (null_error_member w 0 "7" "eth_accounts" (JArr []) data JNull) as [_ H2].
  - apply consistent_run, consistent_boot; apply _.
  - reflexivity.
  - reflexivity.
  - vm_compute. reflexivity.
  - reflexivity.
  - reflexivity.
  - reflexivity.
  - exact H2.
Defined.

(** ** Which notifications need [params] *)




Lemma message_touches_only_its_entry_witness :
  let this := provider (run (impl Rev1) (boot defaults) two_calls) in
  completers (handler (impl Rev1) result_7 this).1.2 !! "8" = completers this !! "8".
Proof.
  intros this.
  apply (message_touches_only_its_entry Rev1 result_7 this).
  intros H. discriminate H.
Defined.

(** ** Responses in any order *)

(** What a handler does with a message that addresses a registered entry
    depends on the provider only through that entry. *)
Lemma handler_hit_uniform rev data key c :
  addressed_key data = Some key →
  ∃ r (deletes : bool) out,
    (invoked out = [] ∨ invoked out = [c]) ∧
    ∀ this, completers this !! key = Some c →
      handler (impl rev) data this =
        (r, if deletes then with_completers (delete key) this else this, out).
Proof.
  intros Hkey.
  destruct (stateless_notification_step data) as (r & out & Hout & Hn).
  destruct rev; simpl.
  - exists r, true,
      ((if carries "error" data || carries "result" data then [Resolve c data] else [])
         ++ out).
    split.
    + rewrite invoked_app, Hout, app_nil_r. destruct (_ || _); auto.
    + intros this Hc. by rewrite (V1_handler_hit _ _ _ _ Hkey Hc), Hn.
  - destruct (carries "error" data) eqn:Herr.
    + destruct (e ← get_field data "error"; m ← get_field e "message"; new_Error m)
        as [error|e] eqn:Hbuild.
      * exists r, true, (Reject c error :: out). split.
        -- right. simpl. by rewrite Hout.
        -- intros this Hc.
           by rewrite (V2_handler_hit _ _ _ _ Hkey Hc), Hn, Herr, Hbuild.
      * exists (Throw e), false, []. split; [by left|].
        intros this Hc.
        by rewrite (V2_handler_hit _ _ _ _ Hkey Hc), Hn, Herr, Hbuild.
    + eexists r, true, _. split; [|intros this Hc;
        by rewrite (V2_handler_hit _ _ _ _ Hkey Hc), Hn, Herr].
      rewrite invoked_app, Hout, app_nil_r. destruct (carries "result" data); auto.
Qed.

Lemma settlement_skip c entries extra :
  c ∉ invoked (performed entries) → c ∉ failures entries →
  settlement c (entries ++ extra) = settlement c extra.
Proof.
  intros Hinv Hfail. apply settlement_fresh; [|done].
  unfold invocations. induction (invoked (performed entries)) as [|c' l IH]; [done|].
  rewrite filter_cons. case_decide; [set_solver|]. apply IH. set_solver.
Qed.

(** X15: responses need not arrive in the order of the calls.  For two
    messages that address two different registered entries, delivering them
    in either order leaves the same provider and gives the caller of each
    call the same outcome. *)
Theorem responses_commute rev w c1 c2 k1 k2 req1 req2 d1 d2 :
  consistent w →
  calls w !! c1 = Some req1 →
  calls w !! c2 = Some req2 →
  addressed_key d1 = Some k1 →
  addressed_key d2 = Some k2 →
  k1 ≠ k2 →
  completers (provider w) !! k1 = Some c1 →
  completers (provider w) !! k2 = Some c2 →
  let wa := run (impl rev) w [Message d1; Message d2] in
  let wb := run (impl rev) w [Message d2; Message d1] in
  provider wa = provider wb ∧
  outcome (impl rev) wa c1 = outcome (impl rev) wb c1 ∧
  outcome (impl rev) wa c2 = outcome (impl rev) wb c2.
Proof.
  intros Hw Hreq1 Hreq2 Hk1 Hk2 Hne Hc1 Hc2 wa wb.
  destruct (handler_hit_uniform rev d1 k1 c1 Hk1) as (r1 & b1 & out1 & Hinv1 & Hrun1).
  destruct (handler_hit_uniform rev d2 k2 c2 Hk2) as (r2 & b2 & out2 & Hinv2 & Hrun2).
  assert (c1 ≠ c2) as Hcne.
  { intros ->. apply Hne. by eapply table_inj. }
  set (this1 := if b1 then with_completers (delete k1) (provider w) else provider w).
  set (this2 := if b2 then with_completers (delete k2) (provider w) else provider w).
  assert (completers this1 !! k2 = Some c2) as Hc2'.
  { subst this1. destruct b1; [|done]. simpl. by rewrite lookup_delete_ne. }
  assert (completers this2 !! k1 = Some c1) as Hc1'.
  { subst this2. destruct b2; [|done]. simpl. by rewrite lookup_delete_ne. }
  assert (wa = {| provider := if b2 then with_completers (delete k2) this1 else this1;
                  calls := calls w; timers := timers w;
                  log := (log w ++ (Did <$> out1) ++ escaped r1)
                           ++ (Did <$> out2) ++ escaped r2 |}) as Hwa.
  { subst wa. simpl. rewrite (Hrun1 _ Hc1). simpl. fold this1. by rewrite (Hrun2 _ Hc2'). }
  assert (wb = {| provider := if b1 then with_completers (delete k1) this2 else this2;
                  calls := calls w; timers := timers w;
                  log := (log w ++ (Did <$> out2) ++ escaped r2)
                           ++ (Did <$> out1) ++ escaped r1 |}) as Hwb.
  { subst wb. simpl. rewrite (Hrun2 _ Hc2). simpl. fold this2. by rewrite (Hrun1 _ Hc1'). }
  assert (∀ c (r : Result unit) out, c ∉ invoked out →
            (c ∉ invoked (performed ((Did <$> out) ++ escaped r))) ∧
            (c ∉ failures ((Did <$> out) ++ escaped r))) as Hquiet.
  { intros c r out Hc.
    rewrite performed_app, performed_did, performed_escaped, app_nil_r.
    rewrite failures_app, failures_did, failures_escaped. split; [done|apply not_elem_of_nil]. }
  assert (c1 ∉ invoked out2) as H12.
  { destruct Hinv2 as [-> | ->]; [apply not_elem_of_nil|].
    by intros ?%list_elem_of_singleton. }
  assert (c2 ∉ invoked out1) as H21.
  { destruct Hinv1 as [-> | ->]; [apply not_elem_of_nil|].
    by intros ?%list_elem_of_singleton. }
  destruct (Hquiet c1 r2 out2 H12) as [Hq1 Hf1].
  destruct (Hquiet c2 r1 out1 H21) as [Hq2 Hf2].
  rewrite Hwa, Hwb. split_and!.
  - simpl. subst this1 this2. destruct b1, b2; try done.
    unfold with_completers. simpl. f_equal. apply delete_delete.
  - unfold outcome. simpl. rewrite Hreq1. simpl.
    rewrite <- !app_assoc.
    rewrite !(settlement_pending _ _ _ _ Hw Hc1).
    rewrite (app_assoc (Did <$> out1)).
    rewrite (settlement_quiet c1 ((Did <$> out1) ++ escaped r1) _ Hq1 Hf1).
    rewrite (app_assoc (Did <$> out2)).
    by rewrite (settlement_skip c1 _ _ Hq1 Hf1).
  - unfold outcome. simpl. rewrite Hreq2. simpl.
    rewrite <- !app_assoc.
    rewrite !(settlement_pending _ _ _ _ Hw Hc2).
    rewrite (app_assoc (Did <$> out1)), (settlement_skip c2 _ _ Hq2 Hf2).
    rewrite (app_assoc (Did <$> out2)).
    by rewrite (settlement_quiet c2 ((Did <$> out2) ++ escaped r2) _ Hq2 Hf2).
Qed.

Lemma responses_commute_witness :
  let w := run (impl Rev1) (boot defaults) two_calls in
  outcome (impl Rev1) (run (impl Rev1) w [Message result_7; Message result_8]) 0
    = outcome (impl Rev1) (run (impl Rev1) w [Message result_8; Message result_7]) 0.
Proof.
  intros w.
  apply (responses_commute Rev1 w 0 1 "7" "8"
           (SendReq "eth_accounts" (JArr [])) (SendReq "net_version" (JArr []))
           result_7 result_8).
  - apply consistent_run, consistent_boot; apply _.
  - reflexivity.
  - reflexivity.
  - reflexivity.
  - reflexivity.
  - intros H. discriminate H.
  - vm_compute. reflexivity.
  - vm_compute. reflexivity.
Defined.

(** ** Timers know identifiers, not calls *)

(** X16: a timer callback captures the identifier only: when it fires it
    rejects whichever call is registered under that identifier and deletes
    the entry, also when that call is not the one that armed the timer, so a
    call that reuses the identifier of a completed call can be timed out by
    the older timer, before its own delay has elapsed. *)
Theorem timer_rejects_by_identifier rev w k c0 id c req :
  consistent w →
  timers w !! k = Some (c0, id) →
  completers (provider w) !! id = Some c →
  calls w !! c = Some req →
  let w' := step (impl rev) w (Timer k) in
  let error := ErrorObj (timeout_message rev id (timeoutMilliseconds (provider w))) in
  log w' = log w ++ [Did (Reject c error)] ∧
  completers (provider w') = delete id (completers (provider w)) ∧
  timers w' = delete k (timers w) ∧
  outcome (impl rev) w' c = Some (rejection req error).
Proof.
  intros Hw Hk Hc Hreq w' error. subst w' error. unfold outcome.
  simpl. rewrite Hk, timer_run_rev, (slot_own _ _ _ Hc). simpl. rewrite Hreq. simpl.
  rewrite (settlement_pending _ _ _ _ Hw Hc).
  split_and!; [done..|].
  unfold settlement. simpl. rewrite decide_True by done. simpl.
  by rewrite resume_rejection.
Qed.

Lemma timer_rejects_by_identifier_witness :
  let w := run (impl Rev1) (boot defaults) reused_identifier in
  timers w = [(0%nat, "7"); (1%nat, "7")] ∧
  outcome (impl Rev1) (step (impl Rev1) w (Timer 0)) 1
    = Some (Rejected (ErrorObj (V1.timeout_message "7" 60000))).
Proof.
  intros w. split; [reflexivity|].
  apply (timer_rejects_by_identifier Rev1 w 0 0 "7" 1 (SendReq "net_version" (JArr []))).
  - apply consistent_run, consistent_boot; apply _.
  - reflexivity.
  - vm_compute. reflexivity.
  - reflexivity.
Defined.
